(** * MovieDetails: episode organizer, action resolver and view state

    A shallow embedding of [src/components/MovieDetails.tsx].  The React
    component is a closure over its props ([movie], [botUsername],
    [channelLink]) and four pieces of local state; here the props are the
    variables of a section, the local state is a record, the two click
    handlers that talk to the browser are computations in a small state
    monad over the part of the browser they touch, and the JSX is the
    list of controls it puts on the screen. *)

From stdpp Require Import gmap strings list sorting.
From Stdlib Require Import ZArith.

Local Open Scope Z_scope.
#[local] Set Warnings "-clear-no-such-hyp".

(** ** JavaScript values *)

(** [ToBoolean]: the conversion JavaScript applies to the operand of
    [if], [!], [&&] and [||]. *)
Class ToBoolean (A : Type) := toBoolean : A -> bool.

(** A string is falsy exactly when it is empty. *)
#[export] Instance string_ToBoolean : ToBoolean string :=
  fun s => match s with EmptyString => false | String _ _ => true end.

(** A number is falsy when it is zero.  Episode and season numbers are
    integers here; [NaN] and fractions are outside the model. *)
#[export] Instance Z_ToBoolean : ToBoolean Z :=
  fun n => negb (n =? 0).

#[export] Instance bool_ToBoolean : ToBoolean bool :=
  fun b => b.

(** An array is an object: always truthy, also when empty. *)
#[export] Instance list_ToBoolean {A} : ToBoolean (list A) :=
  fun _ => true.

(** An optional field [x?: T] holds [undefined] ([None]) or a [T]. *)
#[export] Instance option_ToBoolean {A} `{ToBoolean A} : ToBoolean (option A) :=
  fun o => match o with None => false | Some x => toBoolean x end.

(** [a || b] on an optional value with a default. *)
Definition or_default {A} `{ToBoolean A} (o : option A) (d : A) : A :=
  match o with
  | Some x => if toBoolean x then x else d
  | None => d
  end.

(** The value of an optional field inside the branch its truthiness test
    guards: [Some x] when the field is truthy, [None] when the test
    fails. *)
Definition narrow {A} `{ToBoolean A} (o : option A) : option A :=
  match o with
  | Some x => if toBoolean x then Some x else None
  | None => None
  end.

(** ** The browser, as far as the component touches it *)

(** The two ways a URL leaves the component. *)
Inductive Action : Type :=
| OpenTelegramLink (url : string)      (* Telegram.WebApp.openTelegramLink(url) *)
| WindowOpen (url target : string).    (* window.open(url, target) *)

Definition action_url (a : Action) : string :=
  match a with
  | OpenTelegramLink url => url
  | WindowOpen url _ => url
  end.

(** [telegramWebApp]: whether [window.Telegram?.WebApp] is truthy;
    [probes]: how many times that expression has been evaluated as a
    condition; [opened]: the navigation calls made so far, oldest first. *)
Record World : Type := mkWorld {
  telegramWebApp : bool;
  probes : nat;
  opened : list Action
}.

Definition Eff (A : Type) : Type := World -> A * World.

#[export] Instance Eff_ret : MRet Eff := fun A x w => (x, w).

#[export] Instance Eff_bind : MBind Eff :=
  fun A B k m w => let (x, w') := m w in k x w'.

Definition exec {A} (m : Eff A) (w : World) : World := snd (m w).

(** The condition [(window as any).Telegram?.WebApp]. *)
Definition hasTelegramWebApp : Eff bool :=
  fun w => (telegramWebApp w,
            mkWorld (telegramWebApp w) (S (probes w)) (opened w)).

Definition emit (a : Action) : Eff unit :=
  fun w => (tt, mkWorld (telegramWebApp w) (probes w) (opened w ++ [a])).

Definition openTelegramLink (url : string) : Eff unit :=
  emit (OpenTelegramLink url).

Definition window_open (url target : string) : Eff unit :=
  emit (WindowOpen url target).

(** What a call added to the log of navigations, and how often it asked
    for the messaging client. *)
Definition delivered {A} (m : Eff A) (w : World) : list Action :=
  drop (length (opened w)) (opened (exec m w)).

Definition probes_during {A} (m : Eff A) (w : World) : nat :=
  (probes (exec m w) - probes w)%nat.

(** The two delivery paths of a deep link, by the client's availability. *)
Definition deliver (available : bool) (url : string) : Action :=
  if available then OpenTelegramLink url else WindowOpen url "_blank".

(** An optional field is present when the code's own test on it
    succeeds: it holds a value, and the value is truthy (for a string:
    not empty). *)
Definition present {A} `{ToBoolean A} (o : option A) : Prop :=
  toBoolean o = true.

Definition absent {A} `{ToBoolean A} (o : option A) : Prop :=
  toBoolean o = false.

(** ** The action resolver *)

Section Resolver.
Variable botUsername : string.

(** The template literal [`https://t.me/${botUsername}?start=${code}`]. *)
Definition deepLink (code : string) : string :=
  "https://t.me/" +:+ botUsername +:+ "?start=" +:+ code.

Definition handleWatch (code : string) : Eff unit :=
  let url := deepLink code in
  avail ← hasTelegramWebApp;
  if avail : bool then openTelegramLink url else window_open url "_blank".

(** The chain [if (downloadLink) .. else if (downloadCode) .. else if
    (fallbackCode) ..]: each test is [ToBoolean] of an optional string,
    and in its branch the value is the string itself ([narrow]). *)
Definition handleDownload
    (downloadCode downloadLink fallbackCode : option string) : Eff unit :=
  match narrow downloadLink with
  | Some link => window_open link "_blank"
  | None =>
      match narrow downloadCode with
      | Some code =>
          let url := deepLink code in
          avail ← hasTelegramWebApp;
          if avail : bool then openTelegramLink url
          else window_open url "_blank"
      | None =>
          match narrow fallbackCode with
          | Some fallback => handleWatch fallback
          | None => mret tt
          end
      end
  end.
End Resolver.

(** ** The data model *)

(** The declarations of [Episode] and [Movie] are in [src/types], which
    is not among the sources.  The two records have the fields
    [MovieDetails.tsx] reads, optional where the component tests them
    before use.  Episode and season numbers are integers. *)

Module Episode.
(** Modelled from the spec: the [Episode] interface of [src/types].  The
    spec gives an episode the action references of a title, the direct
    download link among them.  [telegramCode] is a plain string: it is
    the argument of [handleWatch], whose parameter is [code: string]. *)
Record t : Type := mk {
  id : string;
  number : Z;
  season : option Z;
  title : string;
  thumbnail : option string;
  duration : option string;
  fileSize : option string;
  quality : option string;
  isComingSoon : option bool;
  releaseDate : option string;
  telegramCode : string;
  downloadCode : option string;
  downloadLink : option string
}.
End Episode.

Module Movie.
(** Modelled from the spec: the [Movie] interface of [src/types], with
    the fields that decide what the component shows and opens. *)
Record t : Type := mk {
  id : string;
  title : string;
  category : string;
  thumbnail : string;
  description : option string;
  screenshots : option (list string);
  episodes : option (list Episode.t);
  telegramCode : string;
  downloadCode : option string;
  downloadLink : option string
}.
End Movie.

(** ** Arrays *)

Module JsArray.
Section Sort.
Context {A : Type} (compareFn : A -> A -> Z).

(** [Array.prototype.sort(compareFn)] is a stable sort: [a] comes
    before [b] when [compareFn a b < 0], after it when
    [compareFn a b > 0], and elements that compare equal keep their
    order.  A stable insertion sort is such a sort: [x], which came
    before every element of [l], goes in front of the first element
    it does not exceed.  For a comparison of numeric keys every
    stable sort returns the same list ([stable_sort_unique]). *)
Fixpoint insert (x : A) (l : list A) : list A :=
  match l with
  | [] => [x]
  | y :: l' => if compareFn x y <=? 0 then x :: y :: l'
               else y :: insert x l'
  end.

Definition sort (l : list A) : list A := foldr insert [] l.
End Sort.

Definition push {A} (l : list A) (x : A) : list A := l ++ [x].
End JsArray.

(** ** The episode organizer *)

(** [const s = ep.season || 1]. *)
Definition seasonOf (ep : Episode.t) : Z := or_default (Episode.season ep) 1.

(** The body of [movie.episodes.forEach(ep => ..)]: create the season's
    array when the object has none, then push onto it.  [groups] is the
    object used as a map from season number to array. *)
Definition addToGroups (groups : gmap Z (list Episode.t)) (ep : Episode.t)
    : gmap Z (list Episode.t) :=
  let s := seasonOf ep in
  let groups := if negb (toBoolean (groups !! s)) then <[s := []]> groups
                else groups in
  alter (fun arr => JsArray.push arr ep) s groups.

(** [(a, b) => a.number - b.number]. *)
Definition byNumber (a b : Episode.t) : Z := Episode.number a - Episode.number b.

(** [(a, b) => a - b]. *)
Definition ascending (a b : Z) : Z := a - b.

(** [Object.keys(o).map(Number)] for an object keyed by integers.  The
    order in which the keys come is the map's own; [seasonNumbers] sorts
    them, and a sorted list of distinct integers does not depend on the
    order it was sorted from ([seasonNumbers_any_key_order]). *)
Definition keyNumbers {V} (o : gmap Z V) : list Z := (map_to_list o).*1.

Definition episodesBySeason (episodes : option (list Episode.t))
    : gmap Z (list Episode.t) :=
  match narrow episodes with
  | None => ∅                                  (* if (!movie.episodes) return {} *)
  | Some eps =>
      let groups := foldl addToGroups ∅ eps in
      JsArray.sort byNumber <$> groups
  end.

(** The episodes of season [s], in input order. *)
Definition inSeason (s : Z) (eps : list Episode.t) : list Episode.t :=
  filter (fun ep => seasonOf ep = s) eps.

(** The episodes with number [n], in the order they have in [l]. *)
Definition numbered (n : Z) (l : list Episode.t) : list Episode.t :=
  filter (fun ep => Episode.number ep = n) l.

(** Both orders an array is asked to be in. *)
Definition nonDecreasingByNumber (l : list Episode.t) : Prop :=
  StronglySorted (fun a b => Episode.number a <= Episode.number b) l.

(** What has been pushed onto a season's array: nothing yet, or the
    array so far followed by [l]. *)
Definition extend {A} (o : option (list A)) (l : list A) : option (list A) :=
  match l with
  | [] => o
  | _ :: _ => Some (default [] o ++ l)
  end.

(** The two ways a title is a series. *)
Definition sentinelCategory (category : string) : Prop :=
  category = "Series" \/ category = "Korean Drama".

Definition hasEpisodes (episodes : option (list Episode.t)) : Prop :=
  exists eps, episodes = Some eps /\ (0 < length eps)%nat.

(** ** The component *)

Inductive Tab : Type := episodesTab | infoTab.

#[export] Instance Tab_eq_dec : EqDecision Tab.
Proof. solve_decision. Defined.

(** The four [useState] cells. *)
Record ViewState : Type := mkViewState {
  activeTab : Tab;
  selectedSeason : Z;
  viewerOpen : bool;
  viewerIndex : nat
}.

Definition initialState : ViewState := mkViewState episodesTab 1 false 0.

Definition setActiveTab (tab : Tab) (st : ViewState) : ViewState :=
  mkViewState tab (selectedSeason st) (viewerOpen st) (viewerIndex st).

Definition setSelectedSeason (s : Z) (st : ViewState) : ViewState :=
  mkViewState (activeTab st) s (viewerOpen st) (viewerIndex st).

Definition setViewerOpen (b : bool) (st : ViewState) : ViewState :=
  mkViewState (activeTab st) (selectedSeason st) b (viewerIndex st).

Definition setViewerIndex (i : nat) (st : ViewState) : ViewState :=
  mkViewState (activeTab st) (selectedSeason st) (viewerOpen st) i.

(** The elements of the JSX that carry an [onClick]. *)
Inductive Control : Type :=
| CloseButton
| TabButton (tab : Tab)
| SeasonButton (s : Z)
| EpisodeWatchButton (ep : Episode.t)
| EpisodeDownloadButton (ep : Episode.t)
| ScreenshotThumb (idx : nat)
| JoinChannelButton
| MovieWatchButton
| MovieDownloadButton
| ViewerCloseButton.

(** The buttons whose click resolves a destination. *)
Definition isActionButton (c : Control) : bool :=
  match c with
  | EpisodeWatchButton _ | EpisodeDownloadButton _
  | MovieWatchButton | MovieDownloadButton => true
  | _ => false
  end.

Section MovieDetails.
Variable movie : Movie.t.
Variables botUsername channelLink : string.

(** The value of the expression is [true], [false] or [undefined]
    ([movie.episodes && ..] with no episode list); it is only ever
    used as a condition. *)
Definition isSeries : option bool :=
  if bool_decide (Movie.category movie = "Series") then Some true
  else if bool_decide (Movie.category movie = "Korean Drama") then Some true
  else match narrow (Movie.episodes movie) with
       | Some eps => Some (bool_decide (0 < length eps)%nat)
       | None => None
       end.

Definition seasonNumbers : list Z :=
  JsArray.sort ascending (keyNumbers (episodesBySeason (Movie.episodes movie))).

Definition currentSeasonEpisodes (selectedSeason : Z) : list Episode.t :=
  or_default (episodesBySeason (Movie.episodes movie) !! selectedSeason) [].

(** [const isLocked = ep.isComingSoon]. *)
Definition isLocked (ep : Episode.t) : option bool := Episode.isComingSoon ep.

(** The controls of one episode card: the block under [!isLocked &&]. *)
Definition episodeControls (ep : Episode.t) : list Control :=
  if negb (toBoolean (isLocked ep)) then
    EpisodeWatchButton ep ::
    (if toBoolean (Episode.downloadCode ep) then [EpisodeDownloadButton ep]
     else [])
  else [].

Definition seasonSelector : list Control :=
  if bool_decide (1 < length seasonNumbers)%nat
  then SeasonButton <$> seasonNumbers
  else [].

Definition episodesPanel (st : ViewState) : list Control :=
  if bool_decide (activeTab st = episodesTab) && toBoolean isSeries then
    seasonSelector ++
    mjoin (episodeControls <$> currentSeasonEpisodes (selectedSeason st))
  else [].

Definition aboutPanel (st : ViewState) : list Control :=
  if bool_decide (activeTab st = infoTab) then
    match narrow (Movie.screenshots movie) with
    | Some shots =>
        if bool_decide (0 < length shots)%nat
        then ScreenshotThumb <$> seq 0 (length shots)
        else []
    | None => []
    end ++ [JoinChannelButton]
  else [].

Definition moviePanel : list Control :=
  if negb (toBoolean isSeries) then
    MovieWatchButton ::
    (if toBoolean (Movie.downloadCode movie) then [MovieDownloadButton]
     else []) ++
    [JoinChannelButton]
  else [].

(** The screenshot viewer keeps the index it shows in a state cell of
    its own; of its controls only the ones bound to [onClose] reach
    this component. *)
Definition viewerPanel (st : ViewState) : list Control :=
  if viewerOpen st && toBoolean (Movie.screenshots movie)
  then [ViewerCloseButton]
  else [].

(** The controls on the screen, top to bottom. *)
Definition render (st : ViewState) : list Control :=
  CloseButton ::
  (if toBoolean isSeries then [TabButton episodesTab; TabButton infoTab]
   else []) ++
  episodesPanel st ++ aboutPanel st ++ moviePanel ++ viewerPanel st.

(** What a click does: the new local state, and what it opens.
    [onClose] is the parent's callback and leaves the local state as
    it is. *)
Definition onClick (c : Control) (st : ViewState) : Eff ViewState :=
  match c with
  | CloseButton => mret st
  | TabButton tab => mret (setActiveTab tab st)
  | SeasonButton s => mret (setSelectedSeason s st)
  | EpisodeWatchButton ep =>
      handleWatch botUsername (Episode.telegramCode ep);; mret st
  | EpisodeDownloadButton ep =>
      handleDownload botUsername (Episode.downloadCode ep) None None;;
      mret st
  | ScreenshotThumb idx => mret (setViewerOpen true (setViewerIndex idx st))
  | JoinChannelButton => window_open channelLink "_blank";; mret st
  | MovieWatchButton =>
      handleWatch botUsername (Movie.telegramCode movie);; mret st
  | MovieDownloadButton =>
      handleDownload botUsername (Movie.downloadCode movie) None None;;
      mret st
  | ViewerCloseButton => mret (setViewerOpen false st)
  end.

(** One user event: a click on a control that is on the screen. *)
Inductive step : ViewState * World -> ViewState * World -> Prop :=
| step_click c st w : c ∈ render st -> step (st, w) (onClick c st w).

Definition reachable (w0 : World) (sw : ViewState * World) : Prop :=
  rtc step (initialState, w0) sw.
End MovieDetails.

(** ** Sample titles *)

Module Sample.
Definition episode (id : string) (number : Z) (season : option Z)
    : Episode.t :=
  Episode.mk id number season "Episode" None None None None None None
    "watch" None None.

(** An episode that has both a direct link and a download code. *)
Definition episodeWithLinkAndCode : Episode.t :=
  Episode.mk "e1" 1 (Some 1) "Pilot" None None None None None None
    "w1" (Some "abc") (Some "https://x/file.mp4").

(** A released episode with a play code and nothing to download. *)
Definition episodeWithoutDownload : Episode.t :=
  Episode.mk "e2" 2 (Some 1) "Second" None None None None (Some false) None
    "w2" None None.

(** A released episode whose play code is the empty string. *)
Definition episodeWithoutCode : Episode.t :=
  Episode.mk "e4" 4 (Some 1) "Fourth" None None None None None None
    "" None None.

(** An unreleased episode with every action reference filled in. *)
Definition comingSoon : Episode.t :=
  Episode.mk "e3" 3 (Some 1) "Third" None None None None (Some true)
    (Some "2026-01-01") "w3" (Some "d3") (Some "https://x/third.mp4").

Definition series (eps : list Episode.t) : Movie.t :=
  Movie.mk "m1" "Title" "Series" "thumb.jpg" None None (Some eps)
    "w0" None None.

(** A series whose episodes are all of season 2. *)
Definition seasonTwo : list Episode.t :=
  [episode "a" 1 (Some 2); episode "b" 2 (Some 2)].

(** One category and one episode list for each row of the truth table. *)
Definition title (category : string) (eps : option (list Episode.t))
    : Movie.t :=
  Movie.mk "m2" "Title" category "thumb.jpg" None None eps "w0" None None.

Definition browser : World := mkWorld false 0 [].
Definition telegram : World := mkWorld true 0 [].
End Sample.

(** The codes a title offers: those of a single film, and those of the
    episodes of a series that are not coming soon. *)
Definition offeredCode (movie : Movie.t) (code : string) : Prop :=
  (toBoolean (isSeries movie) = false /\
   (code = Movie.telegramCode movie \/ Movie.downloadCode movie = Some code))
  \/
  (exists ep, ep ∈ default [] (Movie.episodes movie) /\
              toBoolean (Episode.isComingSoon ep) = false /\
              (code = Episode.telegramCode ep
               \/ Episode.downloadCode ep = Some code)).

(** ** The screenshot viewer *)

Module ScreenshotViewer.
(** What can be clicked in the viewer: the dark backdrop, the X button,
    the image, and one dot per screenshot. *)
Inductive Control : Type :=
| Backdrop
| CloseButton
| Image
| Dot (idx : nat).

Section Viewer.
Variable screenshots : list string.
Variable initialIndex : nat.

(** [useState(initialIndex)]. *)
Definition initialCurrent : nat := initialIndex.

(** The text [{current + 1} / {screenshots.length}]. *)
Definition counter (current : nat) : nat * nat :=
  ((current + 1)%nat, length screenshots).

(** [src={screenshots[current]}]: [undefined] out of range. *)
Definition image (current : nat) : option string := screenshots !! current.

(** [screenshots.map((_, idx) => ..)]: a dot per screenshot, the one
    with [idx === current] drawn wide. *)
Definition dots (current : nat) : list (nat * bool) :=
  (fun idx => (idx, bool_decide (idx = current)))
    <$> seq 0 (length screenshots).

Definition render (current : nat) : list Control :=
  Backdrop :: CloseButton :: Image :: (Dot <$> seq 0 (length screenshots)).

(** A click: the new [current], and how many times [onClose] runs.  The
    image and the dots stop the event; the X button does not, so its
    click runs [onClose] and then reaches the backdrop, which runs it
    again. *)
Definition onClick (c : Control) (current : nat) : nat * nat :=
  match c with
  | Backdrop => (current, 1%nat)
  | CloseButton => (current, 2%nat)
  | Image => (current, 0%nat)
  | Dot idx => (idx, 0%nat)
  end.

(** One click that leaves the viewer open. *)
Inductive step : nat -> nat -> Prop :=
| step_click c current :
    c ∈ render current -> (onClick c current).2 = 0%nat ->
    step current (onClick c current).1.

Definition reachable (current : nat) : Prop := rtc step initialCurrent current.
End Viewer.
End ScreenshotViewer.

(** ** Strings *)

Module JsString.
(** Case conversion on the letters a-z and A-Z; every other character is
    left as it is, which is what [toUpperCase] and [toLowerCase] do on a
    string of ASCII characters. *)
Definition upperChar (c : Ascii.ascii) : Ascii.ascii :=
  let n := Ascii.N_of_ascii c in
  if ((97 <=? n) && (n <=? 122))%N then Ascii.ascii_of_N (n - 32) else c.

Definition lowerChar (c : Ascii.ascii) : Ascii.ascii :=
  let n := Ascii.N_of_ascii c in
  if ((65 <=? n) && (n <=? 90))%N then Ascii.ascii_of_N (n + 32) else c.

Fixpoint mapChars (f : Ascii.ascii -> Ascii.ascii) (s : string) : string :=
  match s with
  | EmptyString => EmptyString
  | String c s' => String (f c) (mapChars f s')
  end.

Definition toUpperCase (s : string) : string := mapChars upperChar s.
Definition toLowerCase (s : string) : string := mapChars lowerChar s.

(** [s.includes(searchString)]: the search string starts at some
    position of [s]. *)
Fixpoint includes (s searchString : string) : bool :=
  String.prefix searchString s ||
  match s with
  | EmptyString => false
  | String _ s' => includes s' searchString
  end.

Fixpoint isAscii (s : string) : bool :=
  match s with
  | EmptyString => true
  | String c s' => (Ascii.N_of_ascii c <? 128)%N && isAscii s'
  end.
End JsString.

(** ** The badges of the hero image *)

(** The class picked for a badge in [customBadges.slice(0, 3).map(..)]. *)
Definition badgeClass (badge : string) : string :=
  if JsString.includes (JsString.toLowerCase badge) "exclusive"
  then "bg-gradient-to-r from-yellow-400 to-amber-500 text-black"
  else if JsString.includes (JsString.toLowerCase badge) "hd"
  then "bg-gradient-to-r from-blue-500 to-blue-600 text-white"
  else if JsString.includes (JsString.toLowerCase badge) "new"
  then "bg-gradient-to-r from-green-500 to-emerald-500 text-white"
  else "bg-white/20 text-white".

(** The badges drawn over the hero image, each with its class:
    [movie.customBadges && movie.customBadges.length > 0 && ..].  The
    [Movie] record above does not carry the badge list, so it is an
    argument. *)
Definition heroBadges (customBadges : option (list string))
    : list (string * string) :=
  match narrow customBadges with
  | Some badges =>
      if bool_decide (0 < length badges)%nat
      then (fun badge => (badge, badgeClass badge)) <$> take 3 badges
      else []
  | None => []
  end.

(** ** The banner *)

Module Banner.
Definition getBadgeStyle (badge : string) : string :=
  let upperBadge := JsString.toUpperCase badge in
  if JsString.includes upperBadge "TREND" then
    "bg-gradient-to-r from-yellow-400 to-yellow-500 text-black shadow-[0_0_15px_rgba(255,215,0,0.6)]"
  else if JsString.includes upperBadge "NEW" then
    "bg-gradient-to-r from-green-500 to-emerald-500 text-white shadow-[0_0_12px_rgba(16,185,129,0.5)]"
  else if JsString.includes upperBadge "HOT"
          || JsString.includes upperBadge "POPULAR" then
    "bg-gradient-to-r from-red-500 to-orange-500 text-white animate-pulse shadow-[0_0_15px_rgba(239,68,68,0.6)]"
  else if JsString.includes upperBadge "EXCLUSIVE" then
    "bg-gradient-to-r from-purple-500 to-pink-500 text-white shadow-[0_0_12px_rgba(168,85,247,0.5)]"
  else if JsString.includes upperBadge "1080"
          || JsString.includes upperBadge "4K"
          || JsString.includes upperBadge "HD" then
    "bg-gradient-to-r from-blue-500 to-blue-600 text-white shadow-[0_0_10px_rgba(59,130,246,0.5)]"
  else "bg-white/15 backdrop-blur-xl text-white/90 border border-white/20".

(** [b => b.includes('1080') || b.includes('4K') || b.includes('HD')]. *)
Definition mentionsResolution (b : string) : bool :=
  JsString.includes b "1080" || JsString.includes b "4K"
  || JsString.includes b "HD".

(** The three [if]s that fill [badges].  The badge list and the video
    quality are fields of [Movie] the record above does not carry; they
    are arguments here, next to the category. *)
Definition badges (customBadges : option (list string)) (category : string)
    (videoQuality : option string) : list string :=
  let badges := [] in
  let badges :=
    match narrow customBadges with
    | Some custom =>
        if bool_decide (0 < length custom)%nat then badges ++ custom
        else badges
    | None => badges
    end in
  let badges :=
    if toBoolean category && negb (bool_decide (category ∈ badges))
    then JsArray.push badges category
    else badges in
  let badges :=
    match narrow videoQuality with
    | Some quality =>
        if negb (existsb mentionsResolution badges)
        then JsArray.push badges quality
        else badges
    | None => badges
    end in
  badges.


(** What evaluating the dots can throw. *)
Inductive JsError : Type := RangeError.

(** [Array(len)] for an integer [len]: an array of [len] empty slots
    when [len] is an array length, from 0 to 2^32 - 1, and a
    [RangeError] otherwise. *)
Definition arrayOfLength (len : Z) : JsError + nat :=
  if bool_decide (0 <= len < 4294967296) then inr (Z.to_nat len)
  else inl RangeError.

(** The navigation dots: [totalBanners > 1 && [...Array(totalBanners)]
    .map((_, idx) => ..)], one flag per dot telling whether it is the
    wide one ([idx === currentIndex]), or the error [Array] throws.  The
    two props default to 0 and 1. *)
Definition dots (currentIndex totalBanners : option Z)
    : JsError + list bool :=
  let currentIndex := default 0 currentIndex in
  let totalBanners := default 1 totalBanners in
  if bool_decide (1 < totalBanners) then
    match arrayOfLength totalBanners with
    | inr slots =>
        inr ((fun idx : nat => bool_decide (Z.of_nat idx = currentIndex))
               <$> seq 0 slots)
    | inl error => inl error
    end
  else inr [].
End Banner.

(** ** More sample titles *)

Module Fixture.
(** A two-season series with a description and three screenshots. *)
Definition gallery : Movie.t :=
  Movie.mk "m3" "Gallery" "Series" "thumb.jpg" (Some "About")
    (Some ["s0.jpg"; "s1.jpg"; "s2.jpg"])
    (Some [Sample.episode "a" 1 (Some 1); Sample.episode "b" 1 (Some 2)])
    "w0" None None.

(** A single film with a screenshot and a download code. *)
Definition film : Movie.t :=
  Movie.mk "m4" "Film" "Movie" "thumb.jpg" None (Some ["s0.jpg"]) None
    "w0" (Some "d0") None.
End Fixture.

(** * Properties *)

(** ** The effect monad *)

Section EffLemmas.
Lemma exec_emit a w :
  exec (emit a) w = mkWorld (telegramWebApp w) (probes w) (opened w ++ [a]).
Proof. reflexivity. Qed.

Lemma delivered_emit a w : delivered (emit a) w = [a].
Proof. unfold delivered. rewrite exec_emit. simpl. apply drop_app_length. Qed.

Lemma probes_emit a w : probes_during (emit a) w = 0%nat.
Proof. unfold probes_during. rewrite exec_emit. simpl. lia. Qed.

Lemma delivered_mret {A} (x : A) w : delivered (mret x) w = [].
Proof. unfold delivered. simpl. apply drop_all. Qed.

Lemma probes_mret {A} (x : A) w : probes_during (mret x) w = 0%nat.
Proof. apply Nat.sub_diag. Qed.

(** Asking for the client and then taking one of the two paths. *)
Lemma delivered_probe_then url w :
  delivered (avail ← hasTelegramWebApp;
             if avail : bool then openTelegramLink url
             else window_open url "_blank") w
  = [deliver (telegramWebApp w) url].
Proof.
  unfold delivered, deliver, exec, mbind, Eff_bind, hasTelegramWebApp.
  destruct (telegramWebApp w); simpl; apply drop_app_length.
Qed.

Lemma probes_probe_then url w :
  probes_during (avail ← hasTelegramWebApp;
                 if avail : bool then openTelegramLink url
                 else window_open url "_blank") w
  = 1%nat.
Proof.
  unfold probes_during, exec, mbind, Eff_bind, hasTelegramWebApp.
  destruct (telegramWebApp w); simpl; lia.
Qed.

Lemma delivered_then_mret {A} (m : Eff unit) (x : A) w :
  delivered (m;; mret x) w = delivered m w.
Proof. unfold delivered, exec, mbind, Eff_bind. by destruct (m w). Qed.

Lemma probes_then_mret {A} (m : Eff unit) (x : A) w :
  probes_during (m;; mret x) w = probes_during m w.
Proof. unfold probes_during, exec, mbind, Eff_bind. by destruct (m w). Qed.

Lemma narrow_present {A} `{ToBoolean A} (o : option A) :
  present o -> exists x, o = Some x /\ narrow o = Some x.
Proof.
  unfold present, narrow. destruct o as [x|]; simpl; [|done].
  unfold toBoolean at 1, option_ToBoolean. intros ->. eauto.
Qed.

Lemma narrow_absent {A} `{ToBoolean A} (o : option A) :
  absent o -> narrow o = None.
Proof.
  unfold absent, narrow. destruct o as [x|]; simpl; [|done].
  unfold toBoolean at 1, option_ToBoolean. by intros ->.
Qed.
End EffLemmas.

(** ** Sorting *)

Section SortFacts.
Context {A : Type} (compareFn : A -> A -> Z).

Lemma insert_Permutation x l : JsArray.insert compareFn x l ≡ₚ x :: l.
Proof.
  induction l as [|y l IH]; simpl; [done|].
  destruct (compareFn x y <=? 0); [done|].
  rewrite IH. apply Permutation_swap.
Qed.

Lemma sort_Permutation l : JsArray.sort compareFn l ≡ₚ l.
Proof.
  induction l as [|x l IH]; simpl; [done|].
  by rewrite insert_Permutation, IH.
Qed.

Lemma sort_elem_of l x : x ∈ JsArray.sort compareFn l <-> x ∈ l.
Proof. by rewrite sort_Permutation. Qed.

Lemma sort_nil_iff l : JsArray.sort compareFn l = [] <-> l = [].
Proof.
  split; [|by intros ->].
  intros Hs. apply Permutation_nil_r. rewrite <- Hs.
  symmetry. apply sort_Permutation.
Qed.
End SortFacts.

(** Sorting by a numeric key with [(a, b) => key a - key b]. *)
Section SortByKey.
Context {A : Type} (key : A -> Z).

Let compareFn (a b : A) : Z := key a - key b.
Let ordered (a b : A) : Prop := key a <= key b.

Lemma insert_sorted x l :
  StronglySorted ordered l ->
  StronglySorted ordered (JsArray.insert compareFn x l).
Proof.
  induction 1 as [|y l Hl IH Hy]; simpl.
  - repeat constructor.
  - unfold compareFn at 1. destruct (Z.leb_spec (key x - key y) 0) as [Hle|Hgt].
    + constructor; [by constructor|].
      constructor; [unfold ordered; lia|].
      eapply Forall_impl; [exact Hy|]. unfold ordered. intros z Hz. lia.
    + constructor; [done|].
      rewrite insert_Permutation. constructor; [|done].
      unfold ordered. lia.
Qed.

Lemma sort_sorted l : StronglySorted ordered (JsArray.sort compareFn l).
Proof.
  induction l as [|x l IH]; simpl; [constructor|by apply insert_sorted].
Qed.

(** Stability: among the elements of one key, nothing moves. *)
Lemma insert_stable n x l :
  filter (fun a => key a = n) (JsArray.insert compareFn x l)
  = filter (fun a => key a = n) (x :: l).
Proof.
  induction l as [|y l IH]; simpl; [done|].
  unfold compareFn at 1. destruct (Z.leb_spec (key x - key y) 0) as [Hle|Hgt];
    [done|].
  rewrite (filter_cons _ y), IH, !filter_cons.
  repeat case_decide; try done; lia.
Qed.

Lemma sort_stable n l :
  filter (fun a => key a = n) (JsArray.sort compareFn l)
  = filter (fun a => key a = n) l.
Proof.
  induction l as [|x l IH]; simpl; [done|].
  rewrite insert_stable, !filter_cons, IH. done.
Qed.

(** A sorted list is fixed by the order inside each key: two sorted
    lists with the same elements of every key, in the same order, are
    the same list.  So every stable sort by [key] returns what
    [JsArray.sort] returns. *)
Lemma sorted_stable_unique l1 l2 :
  StronglySorted ordered l1 -> StronglySorted ordered l2 ->
  (forall n, filter (fun a => key a = n) l1 = filter (fun a => key a = n) l2) ->
  l1 = l2.
Proof.
  intros Hs1. revert l2.
  induction Hs1 as [|x l1 Hl1 IH Hx]; intros l2 Hs2 Hsame.
  - destruct l2 as [|y l2]; [done|].
    specialize (Hsame (key y)). rewrite filter_cons_True in Hsame by done.
    done.
  - destruct Hs2 as [|y l2 Hl2 Hy].
    { specialize (Hsame (key x)). rewrite filter_cons_True in Hsame by done.
      done. }
    assert (key x = key y) as Hxy.
    { apply Z.le_antisymm.
      - assert (y ∈ x :: l1) as [->|Hin]%elem_of_cons; [|done|].
        { apply (list_elem_of_filter (fun a => key a = key y)).
          rewrite Hsame. rewrite filter_cons_True by done. left. }
        by apply (proj1 (Forall_forall _ _) Hx).
      - assert (x ∈ y :: l2) as [->|Hin]%elem_of_cons; [|done|].
        { apply (list_elem_of_filter (fun a => key a = key x)).
          rewrite <- Hsame. rewrite filter_cons_True by done. left. }
        by apply (proj1 (Forall_forall _ _) Hy). }
    pose proof (Hsame (key x)) as Hhead.
    rewrite filter_cons_True in Hhead by done.
    rewrite filter_cons_True in Hhead by done.
    injection Hhead as <- Htail. f_equal. apply IH; [done|].
    intros n. destruct (decide (key x = n)) as [<-|Hne]; [done|].
    specialize (Hsame n). by rewrite !filter_cons_False in Hsame.
Qed.

Lemma stable_sort_unique l sorted :
  StronglySorted ordered sorted ->
  (forall n, filter (fun a => key a = n) sorted
             = filter (fun a => key a = n) l) ->
  sorted = JsArray.sort compareFn l.
Proof.
  intros Hsorted Hstable. apply sorted_stable_unique; [done|apply sort_sorted|].
  intros n. by rewrite sort_stable.
Qed.
End SortByKey.

(** ** The action resolver *)

Section ResolverFacts.
Variable botUsername : string.

Lemma handleWatch_delivered code w :
  delivered (handleWatch botUsername code) w
  = [deliver (telegramWebApp w) (deepLink botUsername code)].
Proof. apply delivered_probe_then. Qed.

Lemma handleWatch_probes code w :
  probes_during (handleWatch botUsername code) w = 1%nat.
Proof. apply probes_probe_then. Qed.

Lemma handleDownload_link dc dl fc link :
  narrow dl = Some link ->
  handleDownload botUsername dc dl fc = window_open link "_blank".
Proof. unfold handleDownload. by intros ->. Qed.

Lemma handleDownload_code dc dl fc code :
  narrow dl = None -> narrow dc = Some code ->
  handleDownload botUsername dc dl fc = handleWatch botUsername code.
Proof. unfold handleDownload. by intros -> ->. Qed.

Lemma handleDownload_fallback dc dl fc code :
  narrow dl = None -> narrow dc = None -> narrow fc = Some code ->
  handleDownload botUsername dc dl fc = handleWatch botUsername code.
Proof. unfold handleDownload. by intros -> -> ->. Qed.

Lemma handleDownload_nothing dc dl fc :
  narrow dl = None -> narrow dc = None -> narrow fc = None ->
  handleDownload botUsername dc dl fc = mret tt.
Proof. unfold handleDownload. by intros -> -> ->. Qed.
End ResolverFacts.

(** ** The episode organizer *)

Section OrganizerFacts.
Implicit Types (eps : list Episode.t) (groups : gmap Z (list Episode.t)).

Lemma elem_of_inSeason ep s eps :
  ep ∈ inSeason s eps <-> seasonOf ep = s /\ ep ∈ eps.
Proof. unfold inSeason. by rewrite list_elem_of_filter. Qed.

Lemma addToGroups_lookup groups ep s :
  addToGroups groups ep !! s
  = if decide (seasonOf ep = s)
    then Some (default [] (groups !! s) ++ [ep])
    else groups !! s.
Proof.
  unfold addToGroups, JsArray.push.
  destruct (groups !! seasonOf ep) as [arr|] eqn:Hs; simpl.
  - rewrite lookup_alter. case_decide; [subst s|done].
    rewrite Hs. reflexivity.
  - rewrite alter_insert_eq, lookup_insert. case_decide; [subst s|done].
    rewrite Hs. reflexivity.
Qed.

Lemma foldl_addToGroups_lookup eps groups s :
  foldl addToGroups groups eps !! s = extend (groups !! s) (inSeason s eps).
Proof.
  revert groups. induction eps as [|ep eps IH]; intros groups; simpl; [done|].
  rewrite IH, addToGroups_lookup. unfold inSeason. rewrite filter_cons.
  case_decide; [|done].
  unfold extend. destruct (filter _ eps); simpl; [done|].
  by rewrite <- app_assoc.
Qed.

(** The array of season [s]: its episodes, sorted; no array when the
    season has none. *)
Lemma episodesBySeason_lookup eps s :
  episodesBySeason (Some eps) !! s
  = match inSeason s eps with
    | [] => None
    | ep :: rest => Some (JsArray.sort byNumber (ep :: rest))
    end.
Proof.
  unfold episodesBySeason. simpl narrow. cbv iota.
  rewrite lookup_fmap, foldl_addToGroups_lookup, lookup_empty.
  by destruct (inSeason s eps).
Qed.

Lemma episodesBySeason_lookup_Some eps s group :
  episodesBySeason (Some eps) !! s = Some group ->
  group = JsArray.sort byNumber (inSeason s eps) /\ inSeason s eps <> [].
Proof.
  rewrite episodesBySeason_lookup.
  destruct (inSeason s eps); [done|]. by intros [= <-].
Qed.

Lemma episodesBySeason_absent : episodesBySeason None = ∅.
Proof. reflexivity. Qed.

Lemma episodesBySeason_empty : episodesBySeason (Some []) = ∅.
Proof. reflexivity. Qed.

(** Pushing an episode adds it to the union of the arrays. *)
Lemma addToGroups_union groups ep :
  mjoin (map_to_list (addToGroups groups ep)).*2
  ≡ₚ ep :: mjoin (map_to_list groups).*2.
Proof.
  unfold addToGroups, JsArray.push.
  destruct (groups !! seasonOf ep) as [arr|] eqn:Hs; simpl.
  - rewrite alter_alt, Hs, <- insert_delete_eq.
    rewrite map_to_list_insert by apply lookup_delete_eq.
    rewrite <- (map_to_list_delete groups _ _ Hs). simpl.
    rewrite <- app_assoc. simpl. symmetry. apply Permutation_middle.
  - rewrite alter_insert_eq, map_to_list_insert by done. done.
Qed.

Lemma foldl_addToGroups_union eps groups :
  mjoin (map_to_list (foldl addToGroups groups eps)).*2
  ≡ₚ mjoin (map_to_list groups).*2 ++ eps.
Proof.
  revert groups. induction eps as [|ep eps IH]; intros groups; simpl.
  - by rewrite app_nil_r.
  - rewrite IH, addToGroups_union. by rewrite <- Permutation_middle.
Qed.

Lemma sorted_arrays_union (l : list (Z * list Episode.t)) :
  mjoin (prod_map id (JsArray.sort byNumber) <$> l).*2 ≡ₚ mjoin l.*2.
Proof.
  induction l as [|[s arr] l IH]; simpl; [done|].
  by rewrite IH, sort_Permutation.
Qed.

Lemma episodesBySeason_union eps :
  mjoin (map_to_list (episodesBySeason (Some eps))).*2 ≡ₚ eps.
Proof.
  unfold episodesBySeason. simpl narrow. cbv iota.
  rewrite map_to_list_fmap, sorted_arrays_union, foldl_addToGroups_union.
  by rewrite map_to_list_empty.
Qed.
End OrganizerFacts.

(** ** The season index *)

Section SeasonIndex.
Variable movie : Movie.t.

Lemma elem_of_keyNumbers {V} (o : gmap Z V) s :
  s ∈ keyNumbers o <-> is_Some (o !! s).
Proof.
  unfold keyNumbers. rewrite list_elem_of_fmap. split.
  - intros ([s' v] & -> & Hin%elem_of_map_to_list). by exists v.
  - intros [v Hv]. exists (s, v). by rewrite elem_of_map_to_list.
Qed.

Lemma elem_of_seasonNumbers s :
  s ∈ seasonNumbers movie
  <-> is_Some (episodesBySeason (Movie.episodes movie) !! s).
Proof. unfold seasonNumbers. by rewrite sort_elem_of, elem_of_keyNumbers. Qed.

Lemma seasonNumbers_NoDup : NoDup (seasonNumbers movie).
Proof.
  unfold seasonNumbers. rewrite sort_Permutation.
  apply NoDup_fst_map_to_list.
Qed.

Lemma seasonNumbers_sorted : StronglySorted Z.le (seasonNumbers movie).
Proof. apply (sort_sorted (fun s : Z => s)). Qed.

(** The index does not depend on the order in which [Object.keys]
    lists the seasons. *)
Lemma seasonNumbers_any_key_order (keys : list Z) :
  keys ≡ₚ keyNumbers (episodesBySeason (Movie.episodes movie)) ->
  JsArray.sort ascending keys = seasonNumbers movie.
Proof.
  intros Hperm. apply (StronglySorted_unique Z.le).
  - apply (sort_sorted (fun s : Z => s)).
  - apply seasonNumbers_sorted.
  - unfold seasonNumbers. by rewrite !sort_Permutation.
Qed.

(** A season is in the index exactly when some episode falls in it. *)
Lemma elem_of_seasonNumbers_episode s :
  s ∈ seasonNumbers movie
  <-> exists eps ep, Movie.episodes movie = Some eps /\ ep ∈ eps
                     /\ seasonOf ep = s.
Proof.
  rewrite elem_of_seasonNumbers.
  destruct (Movie.episodes movie) as [eps|]; simpl.
  - rewrite episodesBySeason_lookup. split.
    + destruct (inSeason s eps) as [|ep rest] eqn:Hin; [by intros [? ?]|].
      intros _. exists eps, ep. split; [done|].
      assert (ep ∈ inSeason s eps) as [? ?]%elem_of_inSeason
        by (rewrite Hin; left).
      done.
    + intros (eps' & ep & [= <-] & Hin & Hs).
      assert (ep ∈ inSeason s eps) as Hmem by by apply elem_of_inSeason.
      destruct (inSeason s eps); [by apply elem_of_nil in Hmem|eauto].
  - rewrite episodesBySeason_absent, lookup_empty. split.
    + by intros [? ?].
    + by intros (? & ? & ? & _).
Qed.

Lemma currentSeasonEpisodes_lookup s :
  currentSeasonEpisodes movie s
  = default [] (episodesBySeason (Movie.episodes movie) !! s).
Proof.
  unfold currentSeasonEpisodes.
  by destruct (episodesBySeason (Movie.episodes movie) !! s).
Qed.
End SeasonIndex.

(** C2.  The arrays of the organizer hold the input's episodes, each
    once (their union is a permutation of the input, and the array of a
    season is a permutation of the input's episodes of that season);
    every array is in non-decreasing order of episode number; and in
    every array the episodes of one number stand in the order the input
    had them.  An empty list and a missing list both give the empty
    object. *)
Theorem episodesBySeason_organizes (eps : list Episode.t) :
  mjoin (map_to_list (episodesBySeason (Some eps))).*2 ≡ₚ eps /\
  (forall s group, episodesBySeason (Some eps) !! s = Some group ->
     group ≡ₚ inSeason s eps /\
     nonDecreasingByNumber group /\
     forall n, numbered n group = numbered n (inSeason s eps)) /\
  episodesBySeason (Some []) = ∅ /\
  episodesBySeason None = ∅.
Proof.
  split; [apply episodesBySeason_union|].
  split; [|split; [apply episodesBySeason_empty|apply episodesBySeason_absent]].
  intros s group [-> _]%episodesBySeason_lookup_Some.
  split; [apply sort_Permutation|]. split.
  - apply (sort_sorted Episode.number).
  - intros n. apply (sort_stable Episode.number).
Qed.

Lemma episodesBySeason_organizes_witness :
  [Sample.episode "b" 1 None; Sample.episode "a" 2 (Some 1);
   Sample.episode "c" 2 None]
  ≡ₚ inSeason 1 [Sample.episode "a" 2 (Some 1); Sample.episode "b" 1 None;
                 Sample.episode "d" 1 (Some 2); Sample.episode "c" 2 None] /\
  nonDecreasingByNumber
    [Sample.episode "b" 1 None; Sample.episode "a" 2 (Some 1);
     Sample.episode "c" 2 None] /\
  forall n,
    numbered n [Sample.episode "b" 1 None; Sample.episode "a" 2 (Some 1);
                Sample.episode "c" 2 None]
    = numbered n
        (inSeason 1 [Sample.episode "a" 2 (Some 1); Sample.episode "b" 1 None;
                     Sample.episode "d" 1 (Some 2); Sample.episode "c" 2 None]).
Proof.
  apply (episodesBySeason_organizes
           [Sample.episode "a" 2 (Some 1); Sample.episode "b" 1 None;
            Sample.episode "d" 1 (Some 2); Sample.episode "c" 2 None] ).
  reflexivity.
Defined.

(** C6.  An episode whose season is missing or falsy is in the array of
    season 1 and in no other.  Two episodes, one without a season and
    numbered 3, one of season 1 and numbered 1, give a single array, for
    season 1, with number 1 before number 3, whichever came first. *)
Theorem missing_season_is_season_1
    (eps : list Episode.t) (ep a b : Episode.t) :
  (absent (Episode.season ep) -> ep ∈ eps ->
     seasonOf ep = 1 /\
     (exists group, episodesBySeason (Some eps) !! 1 = Some group /\
                    ep ∈ group) /\
     (forall s group, s <> 1 -> episodesBySeason (Some eps) !! s = Some group ->
                      ep ∉ group)) /\
  (Episode.season a = None -> Episode.number a = 3 ->
   Episode.season b = Some 1 -> Episode.number b = 1 ->
     episodesBySeason (Some [a; b]) = {[ 1 := [b; a] ]} /\
     episodesBySeason (Some [b; a]) = {[ 1 := [b; a] ]}).
Proof.
  split.
  - intros Habsent Hin.
    assert (seasonOf ep = 1) as Hs.
    { unfold seasonOf, or_default. unfold absent in Habsent.
      destruct (Episode.season ep) as [n|]; [|done].
      unfold toBoolean, option_ToBoolean in Habsent. by rewrite Habsent. }
    split; [done|]. split.
    + assert (ep ∈ inSeason 1 eps) as Hmem by by apply elem_of_inSeason.
      rewrite episodesBySeason_lookup.
      destruct (inSeason 1 eps) as [|e rest]; [by apply elem_of_nil in Hmem|].
      eexists. split; [done|]. by apply sort_elem_of.
    + intros s group Hne [-> _]%episodesBySeason_lookup_Some.
      rewrite sort_elem_of, elem_of_inSeason. intros [? _]. congruence.
  - intros Ha Hna Hb Hnb.
    assert (seasonOf a = 1) as Hsa by (unfold seasonOf; by rewrite Ha).
    assert (seasonOf b = 1) as Hsb by (unfold seasonOf; by rewrite Hb).
    split; apply map_eq; intros s; rewrite episodesBySeason_lookup;
      unfold inSeason; rewrite !filter_cons, filter_nil, Hsa, Hsb;
      (destruct (decide (1 = s)) as [<-|Hne];
       [rewrite lookup_singleton_eq|by rewrite lookup_singleton_ne]);
      simpl; unfold byNumber; by rewrite Hna, Hnb.
Qed.

Lemma missing_season_is_season_1_witness :
  (seasonOf (Sample.episode "b" 3 None) = 1 /\
   (exists group,
      episodesBySeason (Some [Sample.episode "b" 3 None;
                              Sample.episode "a" 1 (Some 1)]) !! 1
      = Some group /\ Sample.episode "b" 3 None ∈ group) /\
   (forall s group, s <> 1 ->
      episodesBySeason (Some [Sample.episode "b" 3 None;
                              Sample.episode "a" 1 (Some 1)]) !! s
      = Some group -> Sample.episode "b" 3 None ∉ group)) /\
  (episodesBySeason (Some [Sample.episode "b" 3 None;
                           Sample.episode "a" 1 (Some 1)])
   = {[ 1 := [Sample.episode "a" 1 (Some 1); Sample.episode "b" 3 None] ]} /\
   episodesBySeason (Some [Sample.episode "a" 1 (Some 1);
                           Sample.episode "b" 3 None])
   = {[ 1 := [Sample.episode "a" 1 (Some 1); Sample.episode "b" 3 None] ]}).
Proof.
  split.
  - apply (missing_season_is_season_1
             [Sample.episode "b" 3 None; Sample.episode "a" 1 (Some 1)]
             (Sample.episode "b" 3 None)
             (Sample.episode "b" 3 None) (Sample.episode "a" 1 (Some 1))).
    + reflexivity.
    + left.
  - apply (missing_season_is_season_1
             [Sample.episode "b" 3 None; Sample.episode "a" 1 (Some 1)]
             (Sample.episode "b" 3 None)
             (Sample.episode "b" 3 None) (Sample.episode "a" 1 (Some 1)));
      reflexivity.
Defined.

(** C8.  Selecting a season that is not in the season index shows the
    empty episode list.  [currentSeasonEpisodes] is a total function:
    the lookup of a missing key is [undefined], and [|| []] turns it
    into the empty array. *)
Theorem unknown_season_shows_nothing (movie : Movie.t) (selected : Z) :
  selected ∉ seasonNumbers movie ->
  currentSeasonEpisodes movie selected = [].
Proof.
  rewrite elem_of_seasonNumbers, <- eq_None_not_Some.
  intros Hnone. unfold currentSeasonEpisodes. by rewrite Hnone.
Qed.

Lemma unknown_season_shows_nothing_witness :
  seasonNumbers (Sample.series [Sample.episode "a" 1 (Some 1);
                                Sample.episode "b" 2 None]) = [1] /\
  currentSeasonEpisodes (Sample.series [Sample.episode "a" 1 (Some 1);
                                        Sample.episode "b" 2 None]) 2 = [].
Proof.
  split; [reflexivity|].
  apply (unknown_season_shows_nothing
           (Sample.series [Sample.episode "a" 1 (Some 1);
                           Sample.episode "b" 2 None]) 2).
  apply (bool_decide_unpack _). vm_compute. exact I.
Defined.

(** ** What is on the screen *)

Section RenderFacts.
Variable movie : Movie.t.
Variables botUsername channelLink : string.

Lemma elem_of_episodeControls c ep :
  c ∈ episodeControls ep <->
  toBoolean (isLocked ep) = false /\
  (c = EpisodeWatchButton ep \/
   c = EpisodeDownloadButton ep /\ present (Episode.downloadCode ep)).
Proof.
  unfold episodeControls, present.
  destruct (toBoolean (isLocked ep)); simpl.
  - rewrite elem_of_nil. naive_solver.
  - destruct (toBoolean (Episode.downloadCode ep));
      rewrite ?elem_of_cons, ?elem_of_nil; naive_solver.
Qed.

Lemma elem_of_seasonSelector c :
  c ∈ seasonSelector movie <->
  (1 < length (seasonNumbers movie))%nat /\
  exists s, c = SeasonButton s /\ s ∈ seasonNumbers movie.
Proof.
  unfold seasonSelector. case_bool_decide.
  - rewrite list_elem_of_fmap. naive_solver.
  - rewrite elem_of_nil. naive_solver.
Qed.

Lemma elem_of_episodesPanel c st :
  c ∈ episodesPanel movie st <->
  activeTab st = episodesTab /\ toBoolean (isSeries movie) = true /\
  (c ∈ seasonSelector movie \/
   exists ep, ep ∈ currentSeasonEpisodes movie (selectedSeason st) /\
              c ∈ episodeControls ep).
Proof.
  unfold episodesPanel. case_bool_decide as Htab; simpl.
  - destruct (toBoolean (isSeries movie)).
    + rewrite elem_of_app, list_elem_of_join.
      setoid_rewrite list_elem_of_fmap. naive_solver.
    + rewrite elem_of_nil. naive_solver.
  - rewrite elem_of_nil. naive_solver.
Qed.

Lemma aboutPanel_controls c st :
  c ∈ aboutPanel movie st ->
  (exists idx, c = ScreenshotThumb idx) \/ c = JoinChannelButton.
Proof.
  unfold aboutPanel. case_bool_decide; [|by rewrite elem_of_nil].
  rewrite elem_of_app, list_elem_of_singleton. intros [Hshot | ->]; [|by right].
  left. destruct (narrow (Movie.screenshots movie)) as [shots|];
    [|by apply elem_of_nil in Hshot].
  case_bool_decide; [|by apply elem_of_nil in Hshot].
  apply list_elem_of_fmap in Hshot as (idx & -> & _). eauto.
Qed.

Lemma moviePanel_controls c :
  c ∈ moviePanel movie ->
  c = MovieWatchButton \/ c = MovieDownloadButton \/ c = JoinChannelButton.
Proof.
  unfold moviePanel. destruct (negb _); [|by rewrite elem_of_nil].
  destruct (toBoolean (Movie.downloadCode movie)); simpl;
    rewrite !elem_of_cons, elem_of_nil; naive_solver.
Qed.

Lemma viewerPanel_controls c st :
  c ∈ viewerPanel movie st -> c = ViewerCloseButton.
Proof.
  unfold viewerPanel. destruct (_ && _); [|by rewrite elem_of_nil].
  by rewrite list_elem_of_singleton.
Qed.

(** Season buttons and episode buttons come from the episodes panel
    and from nowhere else. *)
Lemma render_episodesPanel c st :
  c ∈ render movie st ->
  (exists s, c = SeasonButton s) \/
  (exists ep, c = EpisodeWatchButton ep \/ c = EpisodeDownloadButton ep) ->
  c ∈ episodesPanel movie st.
Proof.
  unfold render. rewrite elem_of_cons, !elem_of_app.
  intros [->|[Htab|[Hpanel|[Habout|[Hmovie|Hviewer]]]]] Hkind; [| |done|..].
  - naive_solver.
  - destruct (toBoolean (isSeries movie));
      [|by apply elem_of_nil in Htab].
    rewrite !elem_of_cons, elem_of_nil in Htab. naive_solver.
  - apply aboutPanel_controls in Habout. naive_solver.
  - apply moviePanel_controls in Hmovie. naive_solver.
  - apply viewerPanel_controls in Hviewer. naive_solver.
Qed.

Lemma episodesPanel_controls c st :
  c ∈ episodesPanel movie st ->
  (exists s, c = SeasonButton s) \/
  (exists ep, c = EpisodeWatchButton ep \/ c = EpisodeDownloadButton ep).
Proof.
  intros (_ & _ & [Hsel|(ep & _ & Hctl)])%elem_of_episodesPanel.
  - apply elem_of_seasonSelector in Hsel. naive_solver.
  - apply elem_of_episodeControls in Hctl. naive_solver.
Qed.

Lemma render_moviePanel c st :
  c ∈ render movie st ->
  c = MovieWatchButton \/ c = MovieDownloadButton ->
  c ∈ moviePanel movie.
Proof.
  unfold render. rewrite elem_of_cons, !elem_of_app.
  intros [->|[Htab|[Hpanel|[Habout|[Hmovie|Hviewer]]]]] Hkind;
    [| | | |done|].
  - naive_solver.
  - destruct (toBoolean (isSeries movie));
      [|by apply elem_of_nil in Htab].
    rewrite !elem_of_cons, elem_of_nil in Htab. naive_solver.
  - apply episodesPanel_controls in Hpanel. naive_solver.
  - apply aboutPanel_controls in Habout. naive_solver.
  - apply viewerPanel_controls in Hviewer. naive_solver.
Qed.

(** A download button is on the screen only with a download code
    behind it. *)
Lemma EpisodeDownloadButton_rendered ep st :
  EpisodeDownloadButton ep ∈ render movie st ->
  present (Episode.downloadCode ep).
Proof.
  intros Hin. apply render_episodesPanel in Hin; [|naive_solver].
  apply elem_of_episodesPanel in Hin as (_ & _ & [Hsel|(ep' & _ & Hctl)]).
  - apply elem_of_seasonSelector in Hsel. naive_solver.
  - apply elem_of_episodeControls in Hctl. naive_solver.
Qed.

Lemma MovieDownloadButton_rendered st :
  MovieDownloadButton ∈ render movie st ->
  present (Movie.downloadCode movie).
Proof.
  intros Hin. apply render_moviePanel in Hin; [|by right].
  unfold moviePanel, present in *. destruct (negb _);
    [|by apply elem_of_nil in Hin].
  destruct (toBoolean (Movie.downloadCode movie)); [done|].
  simpl in Hin. rewrite !elem_of_cons, elem_of_nil in Hin. naive_solver.
Qed.

Lemma handleDownload_code_only dc :
  present dc ->
  exists code, dc = Some code /\
    handleDownload botUsername dc None None = handleWatch botUsername code.
Proof.
  intros (code & -> & Hn)%narrow_present. exists code. split; [done|].
  by apply handleDownload_code.
Qed.

Local Ltac by_handleWatch :=
  eexists; split; [apply handleWatch_delivered|apply handleWatch_probes].

(** Every watch or download button on the screen, when clicked, asks
    once for the messaging client and opens one deep link. *)
Lemma click_takes_one_path c st w :
  c ∈ render movie st -> isActionButton c = true ->
  exists code,
    delivered (onClick movie botUsername channelLink c st) w
      = [deliver (telegramWebApp w) (deepLink botUsername code)] /\
    probes_during (onClick movie botUsername channelLink c st) w = 1%nat.
Proof.
  intros Hin Hact. destruct c; try discriminate Hact; simpl;
    rewrite delivered_then_mret, probes_then_mret.
  - eexists. split; [apply handleWatch_delivered|apply handleWatch_probes].
  - apply EpisodeDownloadButton_rendered, handleDownload_code_only in Hin
      as (code & _ & ->).
    eexists. split; [apply handleWatch_delivered|apply handleWatch_probes].
  - eexists. split; [apply handleWatch_delivered|apply handleWatch_probes].
  - apply MovieDownloadButton_rendered, handleDownload_code_only in Hin
      as (code & _ & ->).
    eexists. split; [apply handleWatch_delivered|apply handleWatch_probes].
Qed.

Lemma episodesPanel_render c st :
  c ∈ episodesPanel movie st -> c ∈ render movie st.
Proof. unfold render. rewrite elem_of_cons, !elem_of_app. auto. Qed.

Lemma SeasonButton_rendered s st :
  SeasonButton s ∈ render movie st <->
  activeTab st = episodesTab /\ toBoolean (isSeries movie) = true /\
  (1 < length (seasonNumbers movie))%nat /\ s ∈ seasonNumbers movie.
Proof.
  split.
  - intros Hin. apply render_episodesPanel in Hin; [|eauto].
    apply elem_of_episodesPanel in Hin as (? & ? & [Hsel|(ep & _ & Hc)]).
    + apply elem_of_seasonSelector in Hsel as (? & s' & [= <-] & ?). done.
    + apply elem_of_episodeControls in Hc. naive_solver.
  - intros (? & ? & ? & ?). apply episodesPanel_render, elem_of_episodesPanel.
    split; [done|]. split; [done|]. left.
    apply elem_of_seasonSelector. eauto.
Qed.

(** A click that is not on a season button leaves the selected season
    where it was. *)
Lemma then_mret_fst {A} (m : Eff unit) (x : A) w : ((m;; mret x) w).1 = x.
Proof. unfold mbind, Eff_bind. by destruct (m w). Qed.

Lemma onClick_selectedSeason c st w :
  (forall s, c <> SeasonButton s) ->
  selectedSeason (onClick movie botUsername channelLink c st w).1
  = selectedSeason st.
Proof.
  intros Hc. destruct c; simpl; rewrite ?then_mret_fst; try done.
  by destruct (Hc s).
Qed.
End RenderFacts.

Lemma NoDup_all_equal_length {A} (l : list A) :
  NoDup l -> (forall x y, x ∈ l -> y ∈ l -> x = y) -> (length l <= 1)%nat.
Proof.
  destruct l as [|x [|y l]]; simpl; [lia|lia|].
  intros [Hx _]%NoDup_cons Heq. destruct Hx.
  rewrite (Heq x y); [left|left|right; left].
Qed.

(** ** Resolution *)

Lemma action_url_deliver available url : action_url (deliver available url) = url.
Proof. by destruct available. Qed.

Lemma absent_not_present {A} `{ToBoolean A} (o : option A) :
  absent o <-> ~ present o.
Proof. unfold absent, present. destruct (toBoolean o); naive_solver. Qed.

(** C1.  Download resolution is tiered.  A present direct link is the
    destination whatever the two codes hold (so also when all three
    fields are present), and it is opened as it is: the URL handed to
    [window.open] is the link itself, with no code in it.  Without a
    direct link a present download code gives the deep link built from
    it, [https://t.me/<bot>?start=<download code>]; with neither, a
    present fallback code gives the deep link built from the fallback
    code, [https://t.me/<bot>?start=<fallback code>]. *)
Theorem handleDownload_tier_order (botUsername : string)
    (downloadCode downloadLink fallbackCode : option string) (w : World) :
  (present downloadLink ->
     exists link, downloadLink = Some link /\
       delivered (handleDownload botUsername downloadCode downloadLink
                    fallbackCode) w
       = [WindowOpen link "_blank"] /\
       action_url <$> delivered (handleDownload botUsername downloadCode
                                   downloadLink fallbackCode) w
       = [link]) /\
  (absent downloadLink -> present downloadCode ->
     exists code, downloadCode = Some code /\
       delivered (handleDownload botUsername downloadCode downloadLink
                    fallbackCode) w
       = [deliver (telegramWebApp w)
            ("https://t.me/" +:+ botUsername +:+ "?start=" +:+ code)] /\
       action_url <$> delivered (handleDownload botUsername downloadCode
                                   downloadLink fallbackCode) w
       = ["https://t.me/" +:+ botUsername +:+ "?start=" +:+ code]) /\
  (absent downloadLink -> absent downloadCode -> present fallbackCode ->
     exists code, fallbackCode = Some code /\
       delivered (handleDownload botUsername downloadCode downloadLink
                    fallbackCode) w
       = [deliver (telegramWebApp w)
            ("https://t.me/" +:+ botUsername +:+ "?start=" +:+ code)] /\
       action_url <$> delivered (handleDownload botUsername downloadCode
                                   downloadLink fallbackCode) w
       = ["https://t.me/" +:+ botUsername +:+ "?start=" +:+ code]).
Proof.
  repeat split.
  - intros (link & -> & Hn)%narrow_present. exists link. split; [done|].
    rewrite (handleDownload_link _ _ _ _ _ Hn). unfold window_open.
    by rewrite delivered_emit.
  - intros Hl%narrow_absent (code & -> & Hn)%narrow_present.
    exists code. split; [done|].
    rewrite (handleDownload_code _ _ _ _ _ Hl Hn), handleWatch_delivered.
    split; [done|]. simpl. by rewrite action_url_deliver.
  - intros Hl%narrow_absent Hc%narrow_absent (code & -> & Hn)%narrow_present.
    exists code. split; [done|].
    rewrite (handleDownload_fallback _ _ _ _ _ Hl Hc Hn),
      handleWatch_delivered.
    split; [done|]. simpl. by rewrite action_url_deliver.
Qed.

Lemma handleDownload_tier_order_witness :
  delivered (handleDownload "bot" (Some "abc") (Some "https://x/file.mp4")
               (Some "w1")) (mkWorld true 0 [])
  = [WindowOpen "https://x/file.mp4" "_blank"] /\
  delivered (handleDownload "bot" (Some "abc") None (Some "w1"))
    (mkWorld true 0 [])
  = [OpenTelegramLink "https://t.me/bot?start=abc"] /\
  delivered (handleDownload "bot" None (Some "") (Some "w1"))
    (mkWorld false 0 [])
  = [WindowOpen "https://t.me/bot?start=w1" "_blank"].
Proof.
  split; [|split].
  - destruct (handleDownload_tier_order "bot" (Some "abc")
                (Some "https://x/file.mp4") (Some "w1") (mkWorld true 0 []))
      as (Hlink & _ & _).
    destruct (Hlink eq_refl) as (link & Heq & Hopened & _).
    injection Heq as <-. exact Hopened.
  - destruct (handleDownload_tier_order "bot" (Some "abc") None (Some "w1")
                (mkWorld true 0 [])) as (_ & Hcode & _).
    destruct (Hcode eq_refl eq_refl) as (code & Heq & Hopened & _).
    injection Heq as <-. exact Hopened.
  - destruct (handleDownload_tier_order "bot" None (Some "") (Some "w1")
                (mkWorld false 0 [])) as (_ & _ & Hfallback).
    destruct (Hfallback eq_refl eq_refl eq_refl)
      as (code & Heq & Hopened & _).
    injection Heq as <-. exact Hopened.
Defined.

(** C4, as the code has it.  [handleWatch] takes the code as a required
    string and has no branch for a missing one: for every code, the empty
    string included, it opens exactly one destination, the deep link
    [https://t.me/<bot>?start=<code>], after asking once for the
    messaging client.  Nothing of the download fields reaches it: the
    watch button of an episode does the same whatever the episode's
    download code and download link are. *)
Theorem handleWatch_always_opens (botUsername code : string) (w : World) :
  delivered (handleWatch botUsername code) w
    = [deliver (telegramWebApp w) (deepLink botUsername code)] /\
  action_url <$> delivered (handleWatch botUsername code) w
    = ["https://t.me/" +:+ botUsername +:+ "?start=" +:+ code] /\
  probes_during (handleWatch botUsername code) w = 1%nat /\
  forall movie channelLink st i n s t th d fs q cs rd dc dl dc' dl',
    onClick movie botUsername channelLink
      (EpisodeWatchButton (Episode.mk i n s t th d fs q cs rd code dc dl)) st w
    = onClick movie botUsername channelLink
      (EpisodeWatchButton (Episode.mk i n s t th d fs q cs rd code dc' dl')) st w.
Proof.
  split; [apply handleWatch_delivered|].
  split; [|split; [apply handleWatch_probes|done]].
  rewrite handleWatch_delivered. simpl. by rewrite action_url_deliver.
Qed.

(** C4, the claim's last clause fails: called with the empty code, in a
    browser without the messaging client, [handleWatch] opens the deep
    link with an empty start parameter; and an episode whose play code
    is empty has its watch button on the screen, whose click does that. *)
Lemma handleWatch_empty_code_opens :
  delivered (handleWatch "bot" "") Sample.browser
  = [WindowOpen "https://t.me/bot?start=" "_blank"] /\
  render (Sample.series [Sample.episodeWithoutCode]) initialState
  = [CloseButton; TabButton episodesTab; TabButton infoTab;
     EpisodeWatchButton Sample.episodeWithoutCode] /\
  delivered
    (onClick (Sample.series [Sample.episodeWithoutCode]) "bot"
       "https://t.me/channel" (EpisodeWatchButton Sample.episodeWithoutCode)
       initialState) Sample.browser
  = [WindowOpen "https://t.me/bot?start=" "_blank"].
Proof. repeat split. Qed.

(** C9.  A call takes at most one delivery path, and exactly one when it
    resolves a destination; every click on a watch or download button
    that is on the screen is such a call.  A deep link goes to the
    messaging client when it is there and to [window.open] otherwise, on
    one look at the client; a direct link goes to [window.open] in every
    browser, and the client is not even asked. *)
Theorem one_delivery_path_per_call (botUsername code : string)
    (downloadCode downloadLink fallbackCode : option string) (w : World) :
  (forall movie channelLink st c,
     c ∈ render movie st -> isActionButton c = true ->
     length (delivered (onClick movie botUsername channelLink c st) w)
     = 1%nat) /\
  (delivered (handleWatch botUsername code) w
     = [deliver (telegramWebApp w) (deepLink botUsername code)] /\
   probes_during (handleWatch botUsername code) w = 1%nat) /\
  (length (delivered (handleDownload botUsername downloadCode downloadLink
                        fallbackCode) w) <= 1)%nat /\
  (present downloadLink \/ present downloadCode \/ present fallbackCode ->
   length (delivered (handleDownload botUsername downloadCode downloadLink
                        fallbackCode) w) = 1%nat) /\
  (present downloadLink ->
   exists link, downloadLink = Some link /\
     probes_during (handleDownload botUsername downloadCode downloadLink
                      fallbackCode) w = 0%nat /\
     forall w', delivered (handleDownload botUsername downloadCode
                             downloadLink fallbackCode) w'
                = [WindowOpen link "_blank"]) /\
  (absent downloadLink -> present downloadCode \/ present fallbackCode ->
   exists c,
     delivered (handleDownload botUsername downloadCode downloadLink
                  fallbackCode) w
       = [deliver (telegramWebApp w) (deepLink botUsername c)] /\
     probes_during (handleDownload botUsername downloadCode downloadLink
                      fallbackCode) w = 1%nat).
Proof.
  split.
  { intros movie channelLink st c Hin Hact.
    destruct (click_takes_one_path movie botUsername channelLink c st w
                Hin Hact) as (c' & -> & _).
    done. }
  split; [split; [apply handleWatch_delivered|apply handleWatch_probes]|].
  assert (Hdeep : absent downloadLink ->
                  present downloadCode \/ present fallbackCode ->
    exists c, handleDownload botUsername downloadCode downloadLink fallbackCode
              = handleWatch botUsername c).
  { intros Hl%narrow_absent Hor.
    destruct (narrow downloadCode) as [c|] eqn:Hc.
    - exists c. by apply handleDownload_code.
    - destruct Hor as [(c & -> & Hn)%narrow_present
                      |(c & -> & Hn)%narrow_present]; [congruence|].
      exists c. by apply handleDownload_fallback. }
  assert (Hlink : present downloadLink ->
    exists link, downloadLink = Some link /\
      handleDownload botUsername downloadCode downloadLink fallbackCode
      = window_open link "_blank").
  { intros (link & -> & Hn)%narrow_present. exists link. split; [done|].
    by apply handleDownload_link. }
  assert (Hone : present downloadLink \/ present downloadCode
                 \/ present fallbackCode ->
    length (delivered (handleDownload botUsername downloadCode downloadLink
                         fallbackCode) w) = 1%nat).
  { intros Hor. destruct (toBoolean downloadLink) eqn:Hl.
    - destruct (Hlink Hl) as (link & _ & ->).
      unfold window_open. by rewrite delivered_emit.
    - destruct (Hdeep Hl) as (c & ->).
      + destruct Hor as [Hp|Hp]; [|done].
        unfold present in Hp. congruence.
      + by rewrite handleWatch_delivered. }
  split; [|split; [done|split]].
  - destruct (toBoolean downloadLink) eqn:Hl;
      [rewrite Hone; [lia|by left]|].
    destruct (toBoolean downloadCode) eqn:Hc;
      [rewrite Hone; [lia|by right; left]|].
    destruct (toBoolean fallbackCode) eqn:Hf;
      [rewrite Hone; [lia|by right; right]|].
    rewrite handleDownload_nothing by by apply narrow_absent.
    rewrite delivered_mret. simpl. lia.
  - intros Hp. destruct (Hlink Hp) as (link & -> & Heq).
    exists link. split; [done|]. rewrite Heq.
    split; [apply probes_emit|intros w'; apply delivered_emit].
  - intros Hl Hor. destruct (Hdeep Hl Hor) as (c & ->). exists c.
    split; [apply handleWatch_delivered|apply handleWatch_probes].
Qed.

Lemma one_delivery_path_per_call_witness :
  (length (delivered (handleDownload "bot" (Some "abc")
                        (Some "https://x/file.mp4") None)
             (mkWorld true 0 [])) = 1%nat) /\
  (exists link, Some "https://x/file.mp4" = Some link /\
     probes_during (handleDownload "bot" (Some "abc")
                      (Some "https://x/file.mp4") None) (mkWorld true 0 [])
       = 0%nat /\
     forall w', delivered (handleDownload "bot" (Some "abc")
                             (Some "https://x/file.mp4") None) w'
                = [WindowOpen link "_blank"]) /\
  (exists c,
     delivered (handleDownload "bot" (Some "abc") None None)
       (mkWorld true 0 [])
       = [deliver true (deepLink "bot" c)] /\
     probes_during (handleDownload "bot" (Some "abc") None None)
       (mkWorld true 0 []) = 1%nat).
Proof.
  split; [|split].
  - apply (one_delivery_path_per_call "bot" "abc" (Some "abc")
             (Some "https://x/file.mp4") None (mkWorld true 0 [])).
    left. reflexivity.
  - apply (one_delivery_path_per_call "bot" "abc" (Some "abc")
             (Some "https://x/file.mp4") None (mkWorld true 0 [])).
    reflexivity.
  - apply (one_delivery_path_per_call "bot" "abc" (Some "abc")
             None None (mkWorld true 0 [])).
    + reflexivity.
    + left. reflexivity.
Defined.

(** ** Classification *)

Lemma isSeries_true_iff (movie : Movie.t) :
  toBoolean (isSeries movie) = true <->
  sentinelCategory (Movie.category movie) \/ hasEpisodes (Movie.episodes movie).
Proof.
  unfold isSeries, sentinelCategory, hasEpisodes.
  repeat case_bool_decide; simpl; [naive_solver..|].
  destruct (Movie.episodes movie) as [eps|]; simpl.
  - unfold toBoolean, option_ToBoolean, toBoolean, bool_ToBoolean.
    rewrite bool_decide_eq_true. naive_solver.
  - naive_solver.
Qed.

(** C3.  A title is a series exactly when its category is one of the
    two sentinels or it has a non-empty episode list.  The four rows of
    the truth table are spelled out, and a title's other attributes do
    not enter: two titles with the same category and episode list get
    the same value. *)
Theorem isSeries_classification (movie : Movie.t) :
  (toBoolean (isSeries movie) = true <->
   Movie.category movie = "Series" \/ Movie.category movie = "Korean Drama" \/
   exists eps, Movie.episodes movie = Some eps /\ (0 < length eps)%nat) /\
  (sentinelCategory (Movie.category movie) ->
   hasEpisodes (Movie.episodes movie) -> toBoolean (isSeries movie) = true) /\
  (sentinelCategory (Movie.category movie) ->
   ~ hasEpisodes (Movie.episodes movie) -> toBoolean (isSeries movie) = true) /\
  (~ sentinelCategory (Movie.category movie) ->
   hasEpisodes (Movie.episodes movie) -> toBoolean (isSeries movie) = true) /\
  (~ sentinelCategory (Movie.category movie) ->
   ~ hasEpisodes (Movie.episodes movie) -> toBoolean (isSeries movie) = false) /\
  (forall id title thumbnail description screenshots telegramCode
          downloadCode downloadLink,
     isSeries (Movie.mk id title (Movie.category movie) thumbnail description
                 screenshots (Movie.episodes movie) telegramCode downloadCode
                 downloadLink)
     = isSeries movie).
Proof.
  pose proof (isSeries_true_iff movie) as Hiff.
  split; [|split; [|split; [|split; [|split]]]].
  - rewrite Hiff. unfold sentinelCategory, hasEpisodes. naive_solver.
  - intros. apply Hiff. by left.
  - intros. apply Hiff. by left.
  - intros. apply Hiff. by right.
  - intros Hc He. apply not_true_is_false. rewrite Hiff. naive_solver.
  - done.
Qed.

Lemma isSeries_classification_witness :
  toBoolean (isSeries (Sample.title "Series"
                         (Some [Sample.episode "a" 1 None]))) = true /\
  toBoolean (isSeries (Sample.title "Korean Drama" None)) = true /\
  toBoolean (isSeries (Sample.title "Movie"
                         (Some [Sample.episode "a" 1 None]))) = true /\
  toBoolean (isSeries (Sample.title "Movie" (Some []))) = false.
Proof.
  split; [|split; [|split]].
  - destruct (isSeries_classification
                (Sample.title "Series" (Some [Sample.episode "a" 1 None])))
      as (_ & Hboth & _).
    apply Hboth.
    + left. reflexivity.
    + eexists. split; [reflexivity|simpl; lia].
  - destruct (isSeries_classification (Sample.title "Korean Drama" None))
      as (_ & _ & Hcategory & _).
    apply Hcategory.
    + right. reflexivity.
    + intros (eps & Heps & _). discriminate Heps.
  - destruct (isSeries_classification
                (Sample.title "Movie" (Some [Sample.episode "a" 1 None])))
      as (_ & _ & _ & Hepisodes & _).
    apply Hepisodes.
    + intros [H|H]; discriminate H.
    + eexists. split; [reflexivity|simpl; lia].
  - destruct (isSeries_classification (Sample.title "Movie" (Some [])))
      as (_ & _ & _ & _ & Hneither & _).
    apply Hneither.
    + intros [H|H]; discriminate H.
    + intros (eps & Heps & Hlen). injection Heps as <-. simpl in Hlen. lia.
Defined.

(** ** Episode cards *)

(** C7, as the code has it.  Whether an episode is locked is its
    [isComingSoon] flag and nothing else.  A locked episode has no
    controls, whatever its action references hold, and none of its
    buttons is on the screen in any state.  An episode that is not locked
    always has its watch button, whatever its action references hold;
    its download button is there exactly when its download code is
    present. *)
Theorem isComingSoon_locks_controls
    (movie : Movie.t) (st : ViewState) (ep : Episode.t) :
  toBoolean (isLocked ep) = toBoolean (Episode.isComingSoon ep) /\
  (toBoolean (Episode.isComingSoon ep) = true ->
     episodeControls ep = [] /\
     (EpisodeWatchButton ep ∉ render movie st) /\
     (EpisodeDownloadButton ep ∉ render movie st)) /\
  (toBoolean (Episode.isComingSoon ep) = false ->
     EpisodeWatchButton ep ∈ episodeControls ep /\
     (EpisodeDownloadButton ep ∈ episodeControls ep
      <-> present (Episode.downloadCode ep))).
Proof.
  split; [done|]. split.
  - intros Hlocked. split; [unfold episodeControls, isLocked; by rewrite Hlocked|].
    assert (forall c, c = EpisodeWatchButton ep \/ c = EpisodeDownloadButton ep ->
                      c ∉ render movie st) as Hnone.
    { intros c Hc Hin. apply render_episodesPanel in Hin; [|naive_solver].
      apply elem_of_episodesPanel in Hin as (_ & _ & [Hsel|(ep' & _ & Hctl)]).
      - apply elem_of_seasonSelector in Hsel. naive_solver.
      - apply elem_of_episodeControls in Hctl as [Hfree Hwhich].
        assert (ep' = ep) as -> by naive_solver.
        unfold isLocked in Hfree. congruence. }
    split; apply Hnone; auto.
  - intros Hfree. rewrite !elem_of_episodeControls. unfold isLocked.
    naive_solver.
Qed.

Lemma isComingSoon_locks_controls_witness :
  (episodeControls Sample.comingSoon = [] /\
   (EpisodeWatchButton Sample.comingSoon
      ∉ render (Sample.series [Sample.comingSoon]) initialState) /\
   (EpisodeDownloadButton Sample.comingSoon
      ∉ render (Sample.series [Sample.comingSoon]) initialState)) /\
  (EpisodeWatchButton Sample.episodeWithoutDownload
     ∈ episodeControls Sample.episodeWithoutDownload /\
   (EpisodeDownloadButton Sample.episodeWithoutDownload
      ∈ episodeControls Sample.episodeWithoutDownload
    <-> present (Episode.downloadCode Sample.episodeWithoutDownload))).
Proof.
  split.
  - apply (isComingSoon_locks_controls (Sample.series [Sample.comingSoon])
             initialState Sample.comingSoon).
    reflexivity.
  - apply (isComingSoon_locks_controls (Sample.series [Sample.comingSoon])
             initialState Sample.episodeWithoutDownload).
    reflexivity.
Defined.

(** C7, the claim's last clause fails: a released episode with a play
    code and no download code has a watch button and no download button,
    on its card and on the screen. *)
Lemma released_episode_without_download_button :
  Episode.isComingSoon Sample.episodeWithoutDownload = Some false /\
  episodeControls Sample.episodeWithoutDownload
  = [EpisodeWatchButton Sample.episodeWithoutDownload] /\
  render (Sample.series [Sample.episodeWithoutDownload]) initialState
  = [CloseButton; TabButton episodesTab; TabButton infoTab;
     EpisodeWatchButton Sample.episodeWithoutDownload].
Proof. repeat split. Qed.

(** C5, what the code does.  The download button of an episode passes
    [handleDownload] the download code alone.  For an episode with the
    code "abc" the click opens the deep link built from "abc", whatever
    the episode's direct link is; the episode of the scenario has its
    button on the screen and its click opens that deep link, while
    [handleDownload] given the same two fields would open the link. *)
Theorem episode_download_ignores_link :
  (forall movie botUsername channelLink st w
          id number season title thumbnail duration fileSize quality
          isComingSoon releaseDate telegramCode downloadLink,
     delivered
       (onClick movie botUsername channelLink
          (EpisodeDownloadButton
             (Episode.mk id number season title thumbnail duration fileSize
                quality isComingSoon releaseDate telegramCode (Some "abc")
                downloadLink)) st) w
     = [deliver (telegramWebApp w) (deepLink botUsername "abc")]) /\
  Episode.downloadLink Sample.episodeWithLinkAndCode
  = Some "https://x/file.mp4" /\
  Episode.downloadCode Sample.episodeWithLinkAndCode = Some "abc" /\
  render (Sample.series [Sample.episodeWithLinkAndCode]) initialState
  = [CloseButton; TabButton episodesTab; TabButton infoTab;
     EpisodeWatchButton Sample.episodeWithLinkAndCode;
     EpisodeDownloadButton Sample.episodeWithLinkAndCode] /\
  delivered
    (onClick (Sample.series [Sample.episodeWithLinkAndCode]) "bot"
       "https://t.me/channel"
       (EpisodeDownloadButton Sample.episodeWithLinkAndCode) initialState)
    Sample.browser
  = [WindowOpen "https://t.me/bot?start=abc" "_blank"] /\
  delivered
    (handleDownload "bot"
       (Episode.downloadCode Sample.episodeWithLinkAndCode)
       (Episode.downloadLink Sample.episodeWithLinkAndCode) None)
    Sample.browser
  = [WindowOpen "https://x/file.mp4" "_blank"].
Proof.
  split; [|repeat split].
  intros. unfold onClick. rewrite delivered_then_mret.
  rewrite (handleDownload_code _ _ _ _ "abc") by done.
  apply handleWatch_delivered.
Qed.

(** ** The season selector *)

(** C10.  A season button is on the screen only when the season index,
    whose entries are distinct, has more than one of them.  For a title
    whose episodes all fall in one season, in every state the user can
    reach no season button is on the screen and the selected season is
    still 1. *)
Theorem season_selector_needs_two_seasons
    (movie : Movie.t) (botUsername channelLink : string)
    (s : Z) (eps : list Episode.t) (w0 w : World) (st : ViewState) :
  NoDup (seasonNumbers movie) /\
  (forall s', SeasonButton s' ∈ render movie st ->
              (1 < length (seasonNumbers movie))%nat) /\
  (Movie.episodes movie = Some eps ->
   Forall (fun ep => seasonOf ep = s) eps ->
   reachable movie botUsername channelLink w0 (st, w) ->
     (length (seasonNumbers movie) <= 1)%nat /\
     (forall s', SeasonButton s' ∉ render movie st) /\
     selectedSeason st = 1).
Proof.
  split; [apply seasonNumbers_NoDup|].
  split; [intros s' Hin; by apply SeasonButton_rendered in Hin as (_ & _ & ? & _)|].
  intros Heps Hone Hreach.
  assert (length (seasonNumbers movie) <= 1)%nat as Hlen.
  { apply NoDup_all_equal_length; [apply seasonNumbers_NoDup|].
    assert (forall x, x ∈ seasonNumbers movie -> x = s) as Hs.
    { intros x (eps' & ep & Heps' & Hin & <-)%elem_of_seasonNumbers_episode.
      rewrite Forall_forall in Hone. apply Hone. congruence. }
    intros x y Hx%Hs Hy%Hs. congruence. }
  assert (forall st' s', SeasonButton s' ∉ render movie st') as Hnone.
  { intros st' s' (_ & _ & ? & _)%SeasonButton_rendered. lia. }
  split; [done|]. split; [apply Hnone|].
  assert (forall sw, reachable movie botUsername channelLink w0 sw ->
                     selectedSeason sw.1 = 1) as Hinv.
  { unfold reachable. apply (rtc_ind_r (fun sw => selectedSeason sw.1 = 1));
      [done|].
    intros sw1 sw2 _ Hstep IH.
    destruct Hstep as [c st' w' Hc]. simpl in IH.
    rewrite onClick_selectedSeason; [done|].
    intros s' ->. by apply (Hnone st' s'). }
  apply (Hinv (st, w) Hreach).
Qed.

Lemma season_selector_needs_two_seasons_witness :
  (length (seasonNumbers (Sample.series Sample.seasonTwo)) <= 1)%nat /\
  (forall s', SeasonButton s'
     ∉ render (Sample.series Sample.seasonTwo)
         (setActiveTab infoTab initialState)) /\
  selectedSeason (setActiveTab infoTab initialState) = 1.
Proof.
  apply (season_selector_needs_two_seasons
           (Sample.series Sample.seasonTwo) "bot" "https://t.me/channel" 2
           Sample.seasonTwo Sample.browser Sample.browser
           (setActiveTab infoTab initialState)).
  - reflexivity.
  - apply (bool_decide_unpack _). vm_compute. exact I.
  - apply rtc_once.
    apply (step_click _ "bot" "https://t.me/channel" (TabButton infoTab)
             initialState Sample.browser).
    simpl. apply list_elem_of_further, list_elem_of_further, list_elem_of_here.
Defined.

(** * Further properties *)

(** ** The organizer, season by season *)

Lemma StronglySorted_le_NoDup_lt (l : list Z) :
  StronglySorted Z.le l -> NoDup l -> StronglySorted Z.lt l.
Proof.
  induction 1 as [|x l Hl IH Hx]; intros Hnd; [constructor|].
  apply NoDup_cons in Hnd as [Hnotin Hnd].
  constructor; [by apply IH|].
  rewrite Forall_forall in Hx |- *. intros y Hy.
  assert (x <> y) by (by intros ->). specialize (Hx y Hy). lia.
Qed.

Lemma length_le_join {A} (ls : list (list A)) :
  Forall (fun l => l <> []) ls -> (length ls <= length (mjoin ls))%nat.
Proof.
  induction 1 as [|l ls Hl _ IH]; simpl; [done|].
  rewrite length_app. destruct l; [done|]. simpl. lia.
Qed.

Lemma episodesBySeason_nonempty eps s group :
  episodesBySeason (Some eps) !! s = Some group -> group <> [].
Proof.
  intros [-> Hne]%episodesBySeason_lookup_Some. by rewrite sort_nil_iff.
Qed.

Lemma seasonNumbers_length_episodes eps :
  (length (keyNumbers (episodesBySeason (Some eps))) <= length eps)%nat.
Proof.
  unfold keyNumbers. rewrite length_fmap.
  rewrite <- (episodesBySeason_union eps) at 2.
  rewrite <- (length_fmap snd (map_to_list (episodesBySeason (Some eps)))).
  apply length_le_join, Forall_forall. intros group Hin.
  apply list_elem_of_fmap in Hin as ([s g] & -> & Hin%elem_of_map_to_list).
  by eapply episodesBySeason_nonempty.
Qed.

Lemma currentSeasonEpisodes_sort movie s :
  currentSeasonEpisodes movie s
  = JsArray.sort byNumber (inSeason s (default [] (Movie.episodes movie))).
Proof.
  unfold currentSeasonEpisodes.
  destruct (Movie.episodes movie) as [eps|]; simpl; [|done].
  rewrite episodesBySeason_lookup. by destruct (inSeason s eps).
Qed.

(** X1.  The season index lists, in strictly ascending order, exactly the
    season keys that occur among the title's episodes; it is never
    longer than the episode list, and it is empty for a title without
    an episode list. *)
Theorem season_index_spec (movie : Movie.t) :
  StronglySorted Z.lt (seasonNumbers movie) /\
  (forall s, s ∈ seasonNumbers movie <->
             exists ep, ep ∈ default [] (Movie.episodes movie) /\
                        seasonOf ep = s) /\
  (length (seasonNumbers movie)
   <= length (default [] (Movie.episodes movie)))%nat.
Proof.
  split; [|split].
  - apply StronglySorted_le_NoDup_lt;
      [apply seasonNumbers_sorted|apply seasonNumbers_NoDup].
  - intros s. rewrite elem_of_seasonNumbers_episode.
    destruct (Movie.episodes movie) as [eps|]; simpl.
    + naive_solver.
    + split; [by intros (? & ? & ? & _)|].
      by intros (? & ?%elem_of_nil & _).
  - unfold seasonNumbers. rewrite sort_Permutation.
    destruct (Movie.episodes movie) as [eps|]; simpl.
    + apply seasonNumbers_length_episodes.
    + by rewrite episodesBySeason_absent.
Qed.

(** X2.  Whatever season is selected, the list on display holds exactly
    the title's episodes of that season, each as often as the input has
    it, in non-decreasing order of number; it is non-empty exactly when
    the season is in the index. *)
Theorem displayed_season_spec (movie : Movie.t) (s : Z) :
  (forall ep, ep ∈ currentSeasonEpisodes movie s <->
              ep ∈ default [] (Movie.episodes movie) /\ seasonOf ep = s) /\
  currentSeasonEpisodes movie s
    ≡ₚ inSeason s (default [] (Movie.episodes movie)) /\
  nonDecreasingByNumber (currentSeasonEpisodes movie s) /\
  (currentSeasonEpisodes movie s <> [] <-> s ∈ seasonNumbers movie).
Proof.
  rewrite currentSeasonEpisodes_sort. split; [|split; [|split]].
  - intros ep. rewrite sort_elem_of, elem_of_inSeason. naive_solver.
  - apply sort_Permutation.
  - apply (sort_sorted Episode.number).
  - rewrite sort_nil_iff, elem_of_seasonNumbers_episode.
    destruct (Movie.episodes movie) as [eps|]; simpl.
    + split.
      * intros Hne. destruct (inSeason s eps) as [|ep rest] eqn:Hin; [done|].
        assert (ep ∈ inSeason s eps) as [? ?]%elem_of_inSeason
          by (rewrite Hin; left).
        eauto.
      * intros (eps' & ep & [= <-] & Hin & Hs) Hnil.
        assert (ep ∈ inSeason s eps) as Hmem by by apply elem_of_inSeason.
        rewrite Hnil in Hmem. by apply elem_of_nil in Hmem.
    + split; [done|]. by intros (? & ? & ? & _).
Qed.

Lemma Permutation_all_equal {A} (l1 l2 : list A) :
  l1 ≡ₚ l2 -> (forall x y, x ∈ l1 -> y ∈ l1 -> x = y) -> l1 = l2.
Proof.
  revert l2. induction l1 as [|x l1 IH]; intros l2 Hperm Heq.
  - by apply Permutation_nil_l in Hperm.
  - destruct l2 as [|y l2].
    { symmetry in Hperm. by apply Permutation_nil_cons in Hperm. }
    assert (y ∈ x :: l1) as Hy by (rewrite Hperm; left).
    assert (x = y) as <- by (apply Heq; [left|done]).
    f_equal. apply IH.
    + by apply Permutation_cons_inv in Hperm.
    + intros a b Ha Hb. apply Heq; by right.
Qed.

(** X3.  When no two different episodes of one season share a number,
    the organizer's result does not depend on the order of its input:
    any rearrangement of the episode list gives the same object. *)
Theorem episodesBySeason_order_independent (eps eps' : list Episode.t) :
  eps ≡ₚ eps' ->
  (forall a b, a ∈ eps -> b ∈ eps -> seasonOf a = seasonOf b ->
               Episode.number a = Episode.number b -> a = b) ->
  episodesBySeason (Some eps) = episodesBySeason (Some eps').
Proof.
  intros Hperm Hdistinct. apply map_eq. intros s.
  rewrite !episodesBySeason_lookup.
  assert (inSeason s eps ≡ₚ inSeason s eps') as Hs
    by (unfold inSeason; by rewrite Hperm).
  assert (JsArray.sort byNumber (inSeason s eps)
          = JsArray.sort byNumber (inSeason s eps')) as Hsort.
  { apply (sorted_stable_unique Episode.number);
      [apply (sort_sorted Episode.number)..|].
    intros n. rewrite !(sort_stable Episode.number).
    apply Permutation_all_equal; [by rewrite Hs|].
    intros a b [Hna [Hsa Ha]%elem_of_inSeason]%list_elem_of_filter
               [Hnb [Hsb Hb]%elem_of_inSeason]%list_elem_of_filter.
    apply Hdistinct; congruence. }
  destruct (inSeason s eps) as [|a l], (inSeason s eps') as [|a' l'];
    [done| | |by rewrite Hsort].
  - by apply Permutation_nil_cons in Hs.
  - symmetry in Hs. by apply Permutation_nil_cons in Hs.
Qed.

Lemma episodesBySeason_order_independent_witness :
  episodesBySeason (Some [Sample.episode "a" 2 (Some 1);
                          Sample.episode "b" 1 None;
                          Sample.episode "c" 1 (Some 2)])
  = episodesBySeason (Some [Sample.episode "c" 1 (Some 2);
                            Sample.episode "b" 1 None;
                            Sample.episode "a" 2 (Some 1)]).
Proof.
  apply (episodesBySeason_order_independent
           [Sample.episode "a" 2 (Some 1); Sample.episode "b" 1 None;
            Sample.episode "c" 1 (Some 2)]
           [Sample.episode "c" 1 (Some 2); Sample.episode "b" 1 None;
            Sample.episode "a" 2 (Some 1)]).
  - etransitivity; [apply Permutation_swap|].
    etransitivity; [apply perm_skip, Permutation_swap|].
    apply Permutation_swap.
  - intros a b Ha Hb Hs Hn.
    apply list_elem_of_In in Ha, Hb. simpl in Ha, Hb.
    destruct Ha as [<-|[<-|[<-|[]]]], Hb as [<-|[<-|[<-|[]]]];
      first [reflexivity | discriminate Hs | discriminate Hn].
Defined.

(** ** The resolver at its edges *)

Lemma narrow_None {A} `{ToBoolean A} (o : option A) :
  narrow o = None <-> absent o.
Proof.
  split; [|apply narrow_absent].
  unfold narrow, absent. destruct o as [x|]; [|done].
  unfold toBoolean at 2, option_ToBoolean. by destruct (toBoolean x).
Qed.

Lemma exec_handleWatch botUsername code w :
  exec (handleWatch botUsername code) w
  = mkWorld (telegramWebApp w) (S (probes w))
      (opened w ++ [deliver (telegramWebApp w) (deepLink botUsername code)]).
Proof.
  unfold exec, handleWatch, mbind, Eff_bind, hasTelegramWebApp, deliver.
  by destruct (telegramWebApp w).
Qed.

Lemma exec_then_mret {A} (m : Eff unit) (x : A) w :
  exec (m;; mret x) w = exec m w.
Proof. unfold exec, mbind, Eff_bind. by destruct (m w). Qed.

(** X4.  [handleDownload] opens nothing exactly when none of its three
    fields is present, and then it is a no-op on the browser: nothing is
    opened and the messaging client is not looked for. *)
Theorem handleDownload_noop_iff (botUsername : string)
    (downloadCode downloadLink fallbackCode : option string) (w : World) :
  (delivered (handleDownload botUsername downloadCode downloadLink
                fallbackCode) w = [] <->
   absent downloadLink /\ absent downloadCode /\ absent fallbackCode) /\
  (absent downloadLink -> absent downloadCode -> absent fallbackCode ->
   exec (handleDownload botUsername downloadCode downloadLink fallbackCode) w
   = w).
Proof.
  split.
  - rewrite <- !narrow_None.
    destruct (narrow downloadLink) as [link|] eqn:Hl.
    { rewrite (handleDownload_link _ _ _ _ _ Hl). unfold window_open.
      rewrite delivered_emit. naive_solver. }
    destruct (narrow downloadCode) as [code|] eqn:Hc.
    { rewrite (handleDownload_code _ _ _ _ _ Hl Hc), handleWatch_delivered.
      naive_solver. }
    destruct (narrow fallbackCode) as [code|] eqn:Hf.
    { rewrite (handleDownload_fallback _ _ _ _ _ Hl Hc Hf),
        handleWatch_delivered.
      naive_solver. }
    rewrite (handleDownload_nothing _ _ _ _ Hl Hc Hf), delivered_mret. done.
  - intros Hl%narrow_absent Hc%narrow_absent Hf%narrow_absent.
    rewrite (handleDownload_nothing _ _ _ _ Hl Hc Hf). by destruct w.
Qed.

Lemma handleDownload_noop_iff_witness :
  exec (handleDownload "bot" None (Some "") None) Sample.telegram
  = Sample.telegram.
Proof.
  apply (handleDownload_noop_iff "bot" None (Some "") None Sample.telegram);
    reflexivity.
Defined.

(** X5.  Given a download code and no direct link, [handleDownload] does
    what [handleWatch] does with that code, whatever the fallback code
    is: the download button of an episode acts as a watch button on the
    download code. *)
Theorem download_by_code_is_watch (botUsername code : string)
    (fallbackCode : option string) (movie : Movie.t) (channelLink : string)
    (ep : Episode.t) (st : ViewState) :
  toBoolean code = true ->
  Episode.downloadCode ep = Some code ->
  handleDownload botUsername (Some code) None fallbackCode
  = handleWatch botUsername code /\
  onClick movie botUsername channelLink (EpisodeDownloadButton ep) st
  = (handleWatch botUsername code;; mret st).
Proof.
  intros Hcode Hep.
  assert (handleDownload botUsername (Some code) None fallbackCode
          = handleWatch botUsername code) as Heq.
  { apply handleDownload_code; [done|]. unfold narrow. by rewrite Hcode. }
  split; [done|]. unfold onClick. rewrite Hep.
  f_equal. apply handleDownload_code; [done|]. unfold narrow. by rewrite Hcode.
Qed.

Lemma download_by_code_is_watch_witness :
  handleDownload "bot" (Some "abc") None (Some "w1") = handleWatch "bot" "abc" /\
  onClick (Sample.series [Sample.episodeWithLinkAndCode]) "bot"
    "https://t.me/channel"
    (EpisodeDownloadButton Sample.episodeWithLinkAndCode) initialState
  = (handleWatch "bot" "abc";; mret initialState).
Proof.
  apply (download_by_code_is_watch "bot" "abc" (Some "w1")
           (Sample.series [Sample.episodeWithLinkAndCode])
           "https://t.me/channel" Sample.episodeWithLinkAndCode initialState);
    reflexivity.
Defined.

Lemma append_cancel_l (prefix a b : string) :
  prefix +:+ a = prefix +:+ b -> a = b.
Proof.
  induction prefix as [|c prefix IH]; simpl; [done|].
  intros [= Heq]. by apply IH.
Qed.

(** X6.  The code goes into the deep link as it is, after a prefix that
    depends on the bot alone, so for one bot different codes give
    different links. *)
Theorem deepLink_injective (botUsername code1 code2 : string) :
  deepLink botUsername code1 = deepLink botUsername code2 -> code1 = code2.
Proof.
  unfold deepLink. intros Heq.
  by do 3 apply append_cancel_l in Heq.
Qed.

Lemma deepLink_injective_witness : "abc" = "abc".
Proof.
  apply (deepLink_injective "bot" "abc" "abc"). reflexivity.
Defined.

(** ** The view and its clicks *)

Section ViewFacts.
Variable movie : Movie.t.
Variables botUsername channelLink : string.

Lemma elem_of_aboutPanel c st :
  c ∈ aboutPanel movie st <->
  activeTab st = infoTab /\
  (c = JoinChannelButton \/
   exists shots idx, Movie.screenshots movie = Some shots /\
                     c = ScreenshotThumb idx /\ (idx < length shots)%nat).
Proof.
  unfold aboutPanel. case_bool_decide as Htab;
    [|rewrite elem_of_nil; naive_solver].
  rewrite elem_of_app, list_elem_of_singleton.
  destruct (Movie.screenshots movie) as [shots|]; simpl.
  - case_bool_decide as Hlen.
    + rewrite list_elem_of_fmap. setoid_rewrite elem_of_seq. split.
      * intros [(idx & -> & Hidx)| ->]; [|by auto].
        split; [done|]. right. exists shots, idx. split; [done|].
        split; [done|lia].
      * intros (_ & [-> |(shots' & idx & [= <-] & -> & Hidx)]); [by right|].
        left. exists idx. split; [done|lia].
    + rewrite elem_of_nil. split; [naive_solver|].
      intros (_ & [-> |(shots' & idx & [= <-] & -> & Hidx)]); [by right|lia].
  - rewrite elem_of_nil. naive_solver.
Qed.

Lemma elem_of_moviePanel c :
  c ∈ moviePanel movie <->
  toBoolean (isSeries movie) = false /\
  (c = MovieWatchButton \/
   c = MovieDownloadButton /\ present (Movie.downloadCode movie) \/
   c = JoinChannelButton).
Proof.
  unfold moviePanel, present. destruct (toBoolean (isSeries movie)); simpl.
  - rewrite elem_of_nil. naive_solver.
  - destruct (toBoolean (Movie.downloadCode movie)); simpl;
      rewrite !elem_of_cons, elem_of_nil; naive_solver.
Qed.

Lemma elem_of_viewerPanel c st :
  c ∈ viewerPanel movie st <->
  viewerOpen st = true /\ is_Some (Movie.screenshots movie) /\
  c = ViewerCloseButton.
Proof.
  unfold viewerPanel. destruct (viewerOpen st); simpl.
  - destruct (Movie.screenshots movie) as [shots|]; simpl.
    + rewrite list_elem_of_singleton. naive_solver.
    + rewrite elem_of_nil. split; [done|]. by intros (_ & [? ?] & _).
  - rewrite elem_of_nil. naive_solver.
Qed.

Lemma elem_of_render c st :
  c ∈ render movie st <->
  c = CloseButton \/
  toBoolean (isSeries movie) = true /\ (exists tab, c = TabButton tab) \/
  c ∈ episodesPanel movie st \/ c ∈ aboutPanel movie st \/
  c ∈ moviePanel movie \/ c ∈ viewerPanel movie st.
Proof.
  unfold render. rewrite elem_of_cons, !elem_of_app.
  destruct (toBoolean (isSeries movie)).
  - rewrite !elem_of_cons, elem_of_nil. split; [naive_solver|].
    intros [-> |[(_ & [] & ->)|H]]; naive_solver.
  - rewrite elem_of_nil. naive_solver.
Qed.

(** What a click leaves of the local state. *)
Lemma onClick_state c st w :
  (onClick movie botUsername channelLink c st w).1
  = match c with
    | TabButton tab => setActiveTab tab st
    | SeasonButton s => setSelectedSeason s st
    | ScreenshotThumb idx => setViewerOpen true (setViewerIndex idx st)
    | ViewerCloseButton => setViewerOpen false st
    | _ => st
    end.
Proof. destruct c; simpl; by rewrite ?then_mret_fst. Qed.

(** What a click does to the browser. *)
Lemma onClick_world c st w :
  (onClick movie botUsername channelLink c st w).2
  = match c with
    | EpisodeWatchButton ep =>
        exec (handleWatch botUsername (Episode.telegramCode ep)) w
    | EpisodeDownloadButton ep =>
        exec (handleDownload botUsername (Episode.downloadCode ep) None None) w
    | MovieWatchButton =>
        exec (handleWatch botUsername (Movie.telegramCode movie)) w
    | MovieDownloadButton =>
        exec (handleDownload botUsername (Movie.downloadCode movie) None None) w
    | JoinChannelButton => exec (window_open channelLink "_blank") w
    | _ => w
    end.
Proof.
  destruct c; try reflexivity;
    by rewrite <- (exec_then_mret _ st).
Qed.

Lemma reachable_invariant (P : ViewState -> World -> Prop) w0 :
  P initialState w0 ->
  (forall c st w, c ∈ render movie st -> P st w ->
     P (onClick movie botUsername channelLink c st w).1
       (onClick movie botUsername channelLink c st w).2) ->
  forall st w, reachable movie botUsername channelLink w0 (st, w) -> P st w.
Proof.
  intros Hinit Hstep st w Hreach.
  assert (forall sw, reachable movie botUsername channelLink w0 sw ->
                     P sw.1 sw.2) as Hall.
  { unfold reachable. apply (rtc_ind_r (fun sw => P sw.1 sw.2)); [done|].
    intros sw1 sw2 _ Hs IH. destruct Hs as [c st' w' Hc]. by apply Hstep. }
  apply (Hall (st, w) Hreach).
Qed.

Lemma reachable_click c st w w0 :
  reachable movie botUsername channelLink w0 (st, w) ->
  c ∈ render movie st ->
  reachable movie botUsername channelLink w0
    (onClick movie botUsername channelLink c st w).
Proof. intros Hreach Hc. eapply rtc_r; [exact Hreach|by constructor]. Qed.

(** With at most one season in the index no click moves the selected
    season. *)
Lemma selectedSeason_stays_1 w0 st w :
  (length (seasonNumbers movie) <= 1)%nat ->
  reachable movie botUsername channelLink w0 (st, w) ->
  selectedSeason st = 1.
Proof.
  intros Hlen. revert st w.
  apply (reachable_invariant (fun st _ => selectedSeason st = 1)); [done|].
  intros c st w Hc IH. rewrite onClick_state. destruct c; try done.
  apply SeasonButton_rendered in Hc as (_ & _ & ? & _). lia.
Qed.
End ViewFacts.

(** X7.  A title that is not a series has no way out of its first view:
    in every state the user can reach the local state is the initial
    one, and the screen holds the close button, the watch button, the
    download button when there is a download code, and the channel
    button.  The tab bar, the About panel with its description and
    screenshots, and the screenshot viewer never appear. *)
Theorem single_asset_view_is_frozen
    (movie : Movie.t) (botUsername channelLink : string)
    (w0 w : World) (st : ViewState) :
  toBoolean (isSeries movie) = false ->
  reachable movie botUsername channelLink w0 (st, w) ->
  st = initialState /\
  render movie st
  = CloseButton :: MovieWatchButton ::
    (if toBoolean (Movie.downloadCode movie) then [MovieDownloadButton]
     else []) ++ [JoinChannelButton].
Proof.
  intros Hsingle Hreach.
  assert (st = initialState) as ->.
  { revert st w Hreach.
    apply (reachable_invariant movie botUsername channelLink
             (fun st _ => st = initialState)); [done|].
    intros c st w Hc ->. rewrite onClick_state.
    apply elem_of_render in Hc
      as [-> |[[Hs _]|[Hc|[Hc|[Hc|Hc]]]]]; [done|congruence|..].
    - apply elem_of_episodesPanel in Hc as (_ & Hs & _). congruence.
    - by apply elem_of_aboutPanel in Hc as [? _].
    - apply elem_of_moviePanel in Hc as (_ & [-> |[[-> _]| ->]]); done.
    - by apply elem_of_viewerPanel in Hc as [? _]. }
  split; [done|].
  unfold render, episodesPanel, aboutPanel, moviePanel, viewerPanel.
  rewrite Hsingle. simpl. by rewrite app_nil_r.
Qed.

Lemma single_asset_view_is_frozen_witness :
  initialState = initialState /\
  render Fixture.film initialState
  = CloseButton :: MovieWatchButton ::
    (if toBoolean (Movie.downloadCode Fixture.film)
     then [MovieDownloadButton] else []) ++ [JoinChannelButton].
Proof.
  apply (single_asset_view_is_frozen Fixture.film "bot" "https://t.me/channel"
           Sample.browser
           (exec (handleWatch "bot" "w0") Sample.browser) initialState).
  - reflexivity.
  - apply rtc_once.
    apply (step_click Fixture.film "bot" "https://t.me/channel"
             MovieWatchButton initialState Sample.browser).
    simpl. apply list_elem_of_further, list_elem_of_here.
Defined.

Lemma currentSeasonEpisodes_nonempty movie s :
  s ∈ seasonNumbers movie -> currentSeasonEpisodes movie s <> [].
Proof.
  intros [group Hs]%elem_of_seasonNumbers. unfold currentSeasonEpisodes.
  rewrite Hs. simpl.
  destruct (Movie.episodes movie) as [eps|]; simpl in Hs.
  - by eapply episodesBySeason_nonempty.
  - by rewrite episodesBySeason_absent, lookup_empty in Hs.
Qed.

(** X8.  The selected season is 1 or a member of the season index in
    every state the user can reach, and every season button on the
    screen leads to a non-empty episode list: a click on it selects its
    season, and that season has episodes. *)
Theorem selected_season_is_valid
    (movie : Movie.t) (botUsername channelLink : string)
    (w0 w : World) (st : ViewState) :
  reachable movie botUsername channelLink w0 (st, w) ->
  (selectedSeason st = 1 \/ selectedSeason st ∈ seasonNumbers movie) /\
  (forall s, SeasonButton s ∈ render movie st ->
     selectedSeason
       (onClick movie botUsername channelLink (SeasonButton s) st w).1 = s /\
     currentSeasonEpisodes movie s <> []).
Proof.
  intros Hreach. split.
  - revert st w Hreach.
    apply (reachable_invariant movie botUsername channelLink
             (fun st _ => selectedSeason st = 1
                          \/ selectedSeason st ∈ seasonNumbers movie));
      [by left|].
    intros c st w Hc IH. rewrite onClick_state. destruct c; try done.
    right. by apply SeasonButton_rendered in Hc as (_ & _ & _ & ?).
  - intros s (_ & _ & _ & Hs)%SeasonButton_rendered.
    split; [done|by apply currentSeasonEpisodes_nonempty].
Qed.

Lemma selected_season_is_valid_witness :
  (selectedSeason (setSelectedSeason 2 initialState) = 1
   \/ selectedSeason (setSelectedSeason 2 initialState)
      ∈ seasonNumbers Fixture.gallery) /\
  (forall s, SeasonButton s
             ∈ render Fixture.gallery (setSelectedSeason 2 initialState) ->
     selectedSeason
       (onClick Fixture.gallery "bot" "https://t.me/channel" (SeasonButton s)
          (setSelectedSeason 2 initialState) Sample.browser).1 = s /\
     currentSeasonEpisodes Fixture.gallery s <> []).
Proof.
  apply (selected_season_is_valid Fixture.gallery "bot" "https://t.me/channel"
           Sample.browser Sample.browser (setSelectedSeason 2 initialState)).
  apply rtc_once.
  apply (step_click Fixture.gallery "bot" "https://t.me/channel"
           (SeasonButton 2) initialState Sample.browser).
  simpl. do 4 apply list_elem_of_further. apply list_elem_of_here.
Defined.



(** X10.  Whenever the screenshot viewer is open, the title has
    screenshots and the index handed to the viewer points at one of
    them: the viewer never starts on a missing image. *)
Theorem viewer_index_in_range
    (movie : Movie.t) (botUsername channelLink : string)
    (w0 w : World) (st : ViewState) :
  reachable movie botUsername channelLink w0 (st, w) ->
  viewerOpen st = true ->
  exists shots,
    Movie.screenshots movie = Some shots /\
    (viewerIndex st < length shots)%nat /\
    is_Some (ScreenshotViewer.image shots
               (ScreenshotViewer.initialCurrent (viewerIndex st))).
Proof.
  intros Hreach Hopen.
  assert (exists shots, Movie.screenshots movie = Some shots /\
                        (viewerIndex st < length shots)%nat)
    as (shots & Hshots & Hidx).
  { revert st w Hreach Hopen.
    apply (reachable_invariant movie botUsername channelLink
             (fun st _ => viewerOpen st = true ->
                exists shots, Movie.screenshots movie = Some shots /\
                              (viewerIndex st < length shots)%nat));
      [done|].
    intros c st w Hc IH. rewrite onClick_state.
    destruct c; try done. intros _.
    apply elem_of_render in Hc
      as [Hc|[[_ [? Hc]]|[Hc|[Hc|[Hc|Hc]]]]]; [done|done|..].
    - apply episodesPanel_controls in Hc. naive_solver.
    - apply elem_of_aboutPanel in Hc as (_ & [Hc|Hc]); [done|].
      destruct Hc as (shots & idx' & Hshots & [= <-] & Hidx). eauto.
    - apply elem_of_moviePanel in Hc. naive_solver.
    - apply elem_of_viewerPanel in Hc. naive_solver. }
  exists shots. split; [done|]. split; [done|].
  by apply lookup_lt_is_Some_2.
Qed.

Lemma viewer_index_in_range_witness :
  exists shots,
    Movie.screenshots Fixture.gallery = Some shots /\
    (viewerIndex (setViewerOpen true
                    (setViewerIndex 2 (setActiveTab infoTab initialState)))
     < length shots)%nat /\
    is_Some (ScreenshotViewer.image shots
               (ScreenshotViewer.initialCurrent
                  (viewerIndex
                     (setViewerOpen true
                        (setViewerIndex 2
                           (setActiveTab infoTab initialState)))))).
Proof.
  apply (viewer_index_in_range Fixture.gallery "bot" "https://t.me/channel"
           Sample.browser Sample.browser
           (setViewerOpen true
              (setViewerIndex 2 (setActiveTab infoTab initialState)))).
  - eapply rtc_l; [|apply rtc_once].
    + apply (step_click Fixture.gallery "bot" "https://t.me/channel"
               (TabButton infoTab) initialState Sample.browser).
      simpl. apply list_elem_of_further, list_elem_of_further,
        list_elem_of_here.
    + apply (step_click Fixture.gallery "bot" "https://t.me/channel"
               (ScreenshotThumb 2) (setActiveTab infoTab initialState)
               Sample.browser).
      simpl. do 5 apply list_elem_of_further. apply list_elem_of_here.
  - reflexivity.
Defined.

Section LogFacts.
Variable movie : Movie.t.
Variables botUsername channelLink : string.
Variable w0 : World.

(** The only things the component opens. *)
Let allowed (a : Action) : Prop :=
  a = WindowOpen channelLink "_blank" \/
  exists code, offeredCode movie code /\
               a = deliver (telegramWebApp w0) (deepLink botUsername code).

Let grown (w : World) : Prop :=
  telegramWebApp w = telegramWebApp w0 /\
  exists entries,
    opened w = opened w0 ++ entries /\ Forall allowed entries /\
    (probes w0 <= probes w <= probes w0 + length entries)%nat.

Lemma grown_append w a probes' :
  grown w -> allowed a ->
  (probes w <= probes' <= S (probes w))%nat ->
  grown (mkWorld (telegramWebApp w) probes' (opened w ++ [a])).
Proof.
  intros (Htg & entries & Hlog & Hall & Hp) Ha Hp'. split; [done|].
  exists (entries ++ [a]). simpl. split; [by rewrite Hlog, app_assoc|].
  split; [by apply Forall_app; split; [|constructor]|].
  rewrite length_app. simpl. lia.
Qed.

Lemma grown_handleWatch w code :
  offeredCode movie code ->
  grown w -> grown (exec (handleWatch botUsername code) w).
Proof.
  intros Hcode Hw. rewrite exec_handleWatch.
  apply grown_append; [done| |lia].
  right. exists code. split; [done|]. by destruct Hw as [-> _].
Qed.

Lemma grown_handleDownload w dc :
  (forall code, dc = Some code -> offeredCode movie code) ->
  grown w -> grown (exec (handleDownload botUsername dc None None) w).
Proof.
  intros Hcode Hw. destruct (narrow dc) as [code|] eqn:Hdc.
  - rewrite (handleDownload_code _ _ _ _ code) by done.
    apply grown_handleWatch; [|done]. apply Hcode.
    unfold narrow in Hdc. destruct dc as [code'|]; [|done].
    by destruct (toBoolean code'); simplify_eq.
  - rewrite handleDownload_nothing by done. by destruct w.
Qed.

(** An episode button on the screen belongs to an episode of the title
    that is not coming soon. *)
Lemma episode_button_offered c ep st :
  c ∈ render movie st ->
  c = EpisodeWatchButton ep \/ c = EpisodeDownloadButton ep ->
  ep ∈ default [] (Movie.episodes movie) /\
  toBoolean (Episode.isComingSoon ep) = false.
Proof.
  intros Hin Hc. apply render_episodesPanel in Hin; [|naive_solver].
  apply elem_of_episodesPanel in Hin as (_ & _ & [Hsel|(ep' & Hep & Hctl)]).
  { apply elem_of_seasonSelector in Hsel. naive_solver. }
  apply elem_of_episodeControls in Hctl as [Hfree Hwhich].
  assert (ep' = ep) as -> by naive_solver.
  split; [|done].
  rewrite currentSeasonEpisodes_sort, sort_elem_of, elem_of_inSeason in Hep.
  by destruct Hep.
Qed.

Lemma movie_button_single c st :
  c ∈ render movie st ->
  c = MovieWatchButton \/ c = MovieDownloadButton ->
  toBoolean (isSeries movie) = false.
Proof.
  intros Hin Hc. apply render_moviePanel in Hin; [|done].
  by apply elem_of_moviePanel in Hin as [? _].
Qed.

Lemma grown_reachable st w :
  reachable movie botUsername channelLink w0 (st, w) -> grown w.
Proof.
  revert st w.
  apply (reachable_invariant movie botUsername channelLink
           (fun _ w => grown w)).
  - split; [done|]. exists []. rewrite app_nil_r. simpl.
    split; [done|]. split; [constructor|lia].
  - intros c st w Hc Hw. rewrite onClick_world. destruct c; try done.
    + apply grown_handleWatch; [|done]. right. exists ep.
      destruct (episode_button_offered _ ep st Hc) as [? ?]; auto.
    + apply grown_handleDownload; [|done]. intros code Hcode. right.
      exists ep. destruct (episode_button_offered _ ep st Hc) as [? ?]; auto.
    + unfold window_open. rewrite exec_emit.
      apply grown_append; [done|by left|lia].
    + apply grown_handleWatch; [|done]. left.
      split; [by eapply movie_button_single; eauto|by left].
    + apply grown_handleDownload; [|done]. intros code Hcode. left.
      split; [by eapply movie_button_single; eauto|by right].
Qed.
End LogFacts.

(** X11.  Whatever the user clicks, the component opens only two kinds
    of destination: the channel link, through [window.open], and deep
    links of its bot, each delivered by the path that fits the
    messaging client's availability at the start.  The code in such a
    deep link is the play or download code of the film, for a title
    that is not a series, or of an episode of the title that is not
    coming soon: the codes of a coming-soon episode are never opened on
    its behalf, and a direct download link is never opened at all.  The
    component never changes what is already in the log or the client's
    availability, and looks for the client at most once per destination
    opened. *)
Theorem component_opens_only_offered_codes
    (movie : Movie.t) (botUsername channelLink : string)
    (w0 w : World) (st : ViewState) :
  reachable movie botUsername channelLink w0 (st, w) ->
  telegramWebApp w = telegramWebApp w0 /\
  exists entries,
    opened w = opened w0 ++ entries /\
    Forall (fun a =>
              a = WindowOpen channelLink "_blank" \/
              exists code,
                offeredCode movie code /\
                a = deliver (telegramWebApp w0) (deepLink botUsername code))
      entries /\
    (probes w0 <= probes w <= probes w0 + length entries)%nat.
Proof. apply grown_reachable. Qed.

Lemma component_opens_only_offered_codes_witness :
  telegramWebApp (exec (handleWatch "bot" "w0") Sample.telegram)
  = telegramWebApp Sample.telegram /\
  exists entries,
    opened (exec (handleWatch "bot" "w0") Sample.telegram)
    = opened Sample.telegram ++ entries /\
    Forall (fun a =>
              a = WindowOpen "https://t.me/channel" "_blank" \/
              exists code,
                offeredCode Fixture.film code /\
                a = deliver (telegramWebApp Sample.telegram)
                      (deepLink "bot" code))
      entries /\
    (probes Sample.telegram
     <= probes (exec (handleWatch "bot" "w0") Sample.telegram)
     <= probes Sample.telegram + length entries)%nat.
Proof.
  apply (component_opens_only_offered_codes Fixture.film "bot"
           "https://t.me/channel" Sample.telegram
           (exec (handleWatch "bot" "w0") Sample.telegram) initialState).
  apply rtc_once.
  apply (step_click Fixture.film "bot" "https://t.me/channel"
           MovieWatchButton initialState Sample.telegram).
  simpl. apply list_elem_of_further, list_elem_of_here.
Defined.

(** X12.  The channel button is on the screen exactly on the About tab
    and for a title that is not a series.  Its click hands the channel
    link to [window.open] as it is, whether or not the messaging client
    is there and without looking for it, and leaves the local state
    alone. *)
Theorem join_channel_opens_channel
    (movie : Movie.t) (botUsername channelLink : string)
    (st : ViewState) (w : World) :
  (JoinChannelButton ∈ render movie st <->
   activeTab st = infoTab \/ toBoolean (isSeries movie) = false) /\
  onClick movie botUsername channelLink JoinChannelButton st w
  = (st, mkWorld (telegramWebApp w) (probes w)
           (opened w ++ [WindowOpen channelLink "_blank"])).
Proof.
  split; [|done].
  rewrite elem_of_render, elem_of_episodesPanel, elem_of_aboutPanel,
    elem_of_moviePanel, elem_of_viewerPanel, elem_of_seasonSelector.
  split.
  - intros [?|[(_ & ? & ?)|[(_ & _ & [(_ & ? & ? & _)|(ep & _ & Hc)])
                           |[[? _]|[[? _]|(_ & _ & ?)]]]]];
      try done; auto.
    apply elem_of_episodeControls in Hc. naive_solver.
  - intros [?|?]; [right; right; right; left|right; right; right; right; left];
      auto.
Qed.

(** X13.  A click either moves the view or talks to the browser, never
    both: the watch, download, channel and close buttons leave the
    tab, the season and the viewer as they are, and every other control
    opens nothing and does not look for the messaging client. *)
Theorem click_moves_view_or_opens
    (movie : Movie.t) (botUsername channelLink : string)
    (c : Control) (st : ViewState) (w : World) :
  (isActionButton c = true \/ c = JoinChannelButton \/ c = CloseButton ->
   (onClick movie botUsername channelLink c st w).1 = st) /\
  (isActionButton c = false -> c <> JoinChannelButton ->
   (onClick movie botUsername channelLink c st w).2 = w).
Proof.
  rewrite onClick_state, onClick_world. split.
  - intros [Hc|[-> | ->]]; [|done..]. by destruct c.
  - intros Hc Hj. by destruct c.
Qed.

Lemma click_moves_view_or_opens_witness :
  (onClick Fixture.gallery "bot" "https://t.me/channel"
     (EpisodeWatchButton (Sample.episode "a" 1 (Some 1)))
     (setSelectedSeason 2 initialState) Sample.browser).1
  = setSelectedSeason 2 initialState /\
  (onClick Fixture.gallery "bot" "https://t.me/channel"
     (SeasonButton 2) initialState Sample.browser).2
  = Sample.browser.
Proof.
  split.
  - apply (click_moves_view_or_opens Fixture.gallery "bot"
             "https://t.me/channel"
             (EpisodeWatchButton (Sample.episode "a" 1 (Some 1)))
             (setSelectedSeason 2 initialState) Sample.browser).
    left. reflexivity.
  - apply (click_moves_view_or_opens Fixture.gallery "bot"
             "https://t.me/channel" (SeasonButton 2) initialState
             Sample.browser).
    + reflexivity.
    + discriminate.
Defined.

(** ** The screenshot viewer *)

Section ViewerFacts.
Variable screenshots : list string.
Variable initialIndex : nat.

Lemma viewer_reachable_in_range current :
  (initialIndex < length screenshots)%nat ->
  ScreenshotViewer.reachable screenshots initialIndex current ->
  (current < length screenshots)%nat.
Proof.
  intros Hinit. unfold ScreenshotViewer.reachable.
  apply (rtc_ind_r (fun current => (current < length screenshots)%nat));
    [done|].
  intros cur cur' _ Hstep IH. destruct Hstep as [c cur Hc _].
  destruct c; try done. simpl.
  unfold ScreenshotViewer.render in Hc.
  rewrite !elem_of_cons, list_elem_of_fmap in Hc.
  destruct Hc as [?|[?|[?|(idx' & [= <-] & Hidx%elem_of_seq)]]]; [done..|lia].
Qed.

Lemma active_dots_after (current k m : nat) :
  (current < k)%nat ->
  filter (fun d : nat * bool => d.2 = true)
    ((fun idx => (idx, bool_decide (idx = current))) <$> seq k m)
  = [].
Proof.
  revert k. induction m as [|m IH]; intros k Hk; [done|]. simpl.
  rewrite filter_cons_False; [apply IH; lia|].
  simpl. rewrite bool_decide_false by lia. done.
Qed.

Lemma active_dots_from (current k m : nat) :
  (k <= current < k + m)%nat ->
  filter (fun d : nat * bool => d.2 = true)
    ((fun idx => (idx, bool_decide (idx = current))) <$> seq k m)
  = [(current, true)].
Proof.
  revert k. induction m as [|m IH]; intros k Hk; [lia|]. simpl.
  destruct (decide (k = current)) as [->|Hne].
  - rewrite filter_cons_True by (simpl; by rewrite bool_decide_true).
    rewrite bool_decide_true by done. f_equal.
    apply active_dots_after. lia.
  - rewrite filter_cons_False; [apply IH; lia|].
    simpl. by rewrite bool_decide_false.
Qed.
End ViewerFacts.

(** X14.  A viewer opened on an index inside the screenshot list stays
    inside it: after any clicks on the image and the dots there is an
    image to show, the counter reads a position between 1 and the number
    of screenshots, and exactly one dot, the one of the image on
    display, is drawn as active. *)
Theorem viewer_stays_in_range
    (screenshots : list string) (initialIndex current : nat) :
  (initialIndex < length screenshots)%nat ->
  ScreenshotViewer.reachable screenshots initialIndex current ->
  is_Some (ScreenshotViewer.image screenshots current) /\
  (1 <= (ScreenshotViewer.counter screenshots current).1
     <= (ScreenshotViewer.counter screenshots current).2)%nat /\
  filter (fun d => d.2 = true) (ScreenshotViewer.dots screenshots current)
  = [(current, true)].
Proof.
  intros Hinit Hreach.
  pose proof (viewer_reachable_in_range _ _ _ Hinit Hreach) as Hlt.
  split; [by apply lookup_lt_is_Some_2|].
  split; [simpl; lia|].
  apply active_dots_from. lia.
Qed.

Lemma viewer_stays_in_range_witness :
  is_Some (ScreenshotViewer.image ["s0.jpg"; "s1.jpg"; "s2.jpg"] 0) /\
  (1 <= (ScreenshotViewer.counter ["s0.jpg"; "s1.jpg"; "s2.jpg"] 0).1
     <= (ScreenshotViewer.counter ["s0.jpg"; "s1.jpg"; "s2.jpg"] 0).2)%nat /\
  filter (fun d => d.2 = true)
    (ScreenshotViewer.dots ["s0.jpg"; "s1.jpg"; "s2.jpg"] 0)
  = [(0%nat, true)].
Proof.
  apply (viewer_stays_in_range ["s0.jpg"; "s1.jpg"; "s2.jpg"] 2 0).
  - simpl. lia.
  - apply rtc_once.
    apply (ScreenshotViewer.step_click ["s0.jpg"; "s1.jpg"; "s2.jpg"]
             (ScreenshotViewer.Dot 0) 2).
    + simpl. do 3 apply list_elem_of_further. apply list_elem_of_here.
    + reflexivity.
Defined.

(** ** Strings *)

Section StringFacts.
Import JsString.

Lemma append_String c (a b : string) : String c a +:+ b = String c (a +:+ b).
Proof. reflexivity. Qed.

Lemma append_empty (b : string) : "" +:+ b = b.
Proof. reflexivity. Qed.

Lemma prefix_spec (p s : string) :
  String.prefix p s = true <-> exists t, s = p +:+ t.
Proof.
  revert s. induction p as [|c p IH]; intros s; simpl.
  - destruct s; simpl; naive_solver.
  - destruct s as [|c' s]; simpl.
    + split; [done|]. by intros [t ?].
    + destruct (Ascii.ascii_dec c c') as [<-|Hne].
      * rewrite IH. split; intros [t Ht]; exists t;
          rewrite append_String in *; congruence.
      * split; [done|]. intros [t Ht]. rewrite append_String in Ht.
        congruence.
Qed.

Lemma includes_unfold (s sub : string) :
  includes s sub
  = String.prefix sub s ||
    match s with
    | EmptyString => false
    | String _ s' => includes s' sub
    end.
Proof. by destruct s. Qed.

Lemma includes_spec (s sub : string) :
  includes s sub = true <-> exists a b, s = a +:+ sub +:+ b.
Proof.
  induction s as [|c s IH];
    rewrite includes_unfold, orb_true_iff, prefix_spec.
  - split.
    + intros [[t Ht]|?]; [|done]. by exists "", t.
    + intros (a & b & Hab). left.
      destruct a; [by exists b|by rewrite append_String in Hab].
  - rewrite IH. split.
    + intros [[t Ht]|(a & b & ->)]; [by exists "", t|].
      by exists (String c a), b.
    + intros (a & b & Hab). destruct a as [|c' a].
      * left. by exists b.
      * right. rewrite append_String in Hab. injection Hab as -> ->.
        by exists a, b.
Qed.

Lemma mapChars_app f (a b : string) :
  mapChars f (a +:+ b) = mapChars f a +:+ mapChars f b.
Proof. induction a as [|c a IH]; simpl; [done|]. by rewrite IH. Qed.

Lemma mapChars_ext f g (s : string) :
  (forall c, f c = g c) -> mapChars f s = mapChars g s.
Proof. intros Hfg. induction s as [|c s IH]; simpl; [done|]. by rewrite Hfg, IH. Qed.

Lemma mapChars_compose f g (s : string) :
  mapChars f (mapChars g s) = mapChars (fun c => f (g c)) s.
Proof. induction s as [|c s IH]; simpl; [done|]. by rewrite IH. Qed.

Lemma upperChar_idemp c : upperChar (upperChar c) = upperChar c.
Proof. by destruct c as [[] [] [] [] [] [] [] []]. Qed.

Lemma lowerChar_idemp c : lowerChar (lowerChar c) = lowerChar c.
Proof. by destruct c as [[] [] [] [] [] [] [] []]. Qed.

Lemma upperChar_lowerChar c : upperChar (lowerChar c) = upperChar c.
Proof. by destruct c as [[] [] [] [] [] [] [] []]. Qed.

Lemma lowerChar_upperChar c : lowerChar (upperChar c) = lowerChar c.
Proof. by destruct c as [[] [] [] [] [] [] [] []]. Qed.

Lemma toUpperCase_idemp s : toUpperCase (toUpperCase s) = toUpperCase s.
Proof.
  unfold toUpperCase. rewrite mapChars_compose.
  apply mapChars_ext, upperChar_idemp.
Qed.

Lemma toUpperCase_toLowerCase s : toUpperCase (toLowerCase s) = toUpperCase s.
Proof.
  unfold toUpperCase, toLowerCase. rewrite mapChars_compose.
  apply mapChars_ext, upperChar_lowerChar.
Qed.

Lemma toLowerCase_idemp s : toLowerCase (toLowerCase s) = toLowerCase s.
Proof.
  unfold toLowerCase. rewrite mapChars_compose.
  apply mapChars_ext, lowerChar_idemp.
Qed.

Lemma toLowerCase_toUpperCase s : toLowerCase (toUpperCase s) = toLowerCase s.
Proof.
  unfold toUpperCase, toLowerCase. rewrite mapChars_compose.
  apply mapChars_ext, lowerChar_upperChar.
Qed.

(** A word written in any letter case inside a text is found in the
    converted text. *)
Lemma includes_converted f (before word after : string) :
  includes (mapChars f (before +:+ word +:+ after)) (mapChars f word) = true.
Proof. apply includes_spec. rewrite !mapChars_app. eauto. Qed.
End StringFacts.

(** ** Badges *)

(** X15.  The style of a banner badge does not depend on letter case
    (for a badge of ASCII characters): the badge, its upper-case form
    and its lower-case form get the same style.  A badge that contains
    the word "trend" in any mix of cases gets the trend style, whatever
    else it contains. *)
Theorem getBadgeStyle_ignores_case (badge before word after : string) :
  JsString.isAscii badge = true ->
  JsString.toUpperCase word = "TREND" ->
  Banner.getBadgeStyle (JsString.toUpperCase badge)
  = Banner.getBadgeStyle badge /\
  Banner.getBadgeStyle (JsString.toLowerCase badge)
  = Banner.getBadgeStyle badge /\
  Banner.getBadgeStyle (before +:+ word +:+ after)
  = "bg-gradient-to-r from-yellow-400 to-yellow-500 text-black shadow-[0_0_15px_rgba(255,215,0,0.6)]".
Proof.
  intros _ Hword. unfold Banner.getBadgeStyle.
  rewrite toUpperCase_idemp, toUpperCase_toLowerCase.
  split; [done|]. split; [done|].
  unfold JsString.toUpperCase in *. rewrite <- Hword at 1.
  by rewrite includes_converted.
Qed.

Lemma getBadgeStyle_ignores_case_witness :
  Banner.getBadgeStyle (JsString.toUpperCase "Full hd")
  = Banner.getBadgeStyle "Full hd" /\
  Banner.getBadgeStyle (JsString.toLowerCase "Full hd")
  = Banner.getBadgeStyle "Full hd" /\
  Banner.getBadgeStyle ("New: " +:+ "Trend" +:+ "ing in HD")
  = "bg-gradient-to-r from-yellow-400 to-yellow-500 text-black shadow-[0_0_15px_rgba(255,215,0,0.6)]".
Proof.
  apply (getBadgeStyle_ignores_case "Full hd" "New: " "Trend" "ing in HD");
    reflexivity.
Defined.

(** X16.  Over the hero image the first three custom badges are drawn,
    in their order, and no others; a missing or empty badge list draws
    none.  The class of a badge does not depend on letter case (for a
    badge of ASCII characters), and a badge that contains "exclusive"
    in any mix of cases gets the gold class whatever else it contains. *)
Theorem hero_badges_spec
    (customBadges : option (list string)) (badge before word after : string) :
  JsString.isAscii badge = true ->
  JsString.toLowerCase word = "exclusive" ->
  (heroBadges customBadges).*1 = take 3 (default [] customBadges) /\
  (length (heroBadges customBadges) <= 3)%nat /\
  badgeClass (JsString.toUpperCase badge) = badgeClass badge /\
  badgeClass (JsString.toLowerCase badge) = badgeClass badge /\
  badgeClass (before +:+ word +:+ after)
  = "bg-gradient-to-r from-yellow-400 to-amber-500 text-black".
Proof.
  intros _ Hword.
  assert ((heroBadges customBadges).*1 = take 3 (default [] customBadges))
    as Hnames.
  { unfold heroBadges. destruct customBadges as [badges|]; simpl; [|done].
    case_bool_decide as Hlen.
    - rewrite <- list_fmap_compose. apply list_fmap_id.
    - destruct badges; [done|simpl in Hlen; lia]. }
  split; [done|]. split.
  { rewrite <- (length_fmap fst), Hnames, length_take. lia. }
  unfold badgeClass. rewrite toLowerCase_idemp, toLowerCase_toUpperCase.
  split; [done|]. split; [done|].
  unfold JsString.toLowerCase in *. rewrite <- Hword at 1.
  by rewrite includes_converted.
Qed.

Lemma hero_badges_spec_witness :
  (heroBadges (Some ["New"; "HD"; "Exclusive"; "Dubbed"])).*1
  = take 3 (default [] (Some ["New"; "HD"; "Exclusive"; "Dubbed"])) /\
  (length (heroBadges (Some ["New"; "HD"; "Exclusive"; "Dubbed"])) <= 3)%nat /\
  badgeClass (JsString.toUpperCase "New") = badgeClass "New" /\
  badgeClass (JsString.toLowerCase "New") = badgeClass "New" /\
  badgeClass ("HD " +:+ "EXCLUSIVE" +:+ " new")
  = "bg-gradient-to-r from-yellow-400 to-amber-500 text-black".
Proof.
  apply (hero_badges_spec (Some ["New"; "HD"; "Exclusive"; "Dubbed"])
           "New" "HD " "EXCLUSIVE" " new"); reflexivity.
Defined.

(** ** The banner *)




Lemma active_flags_count (current : Z) (k m : nat) :
  length (filter (fun b : bool => b = true)
            ((fun idx : nat => bool_decide (Z.of_nat idx = current))
               <$> seq k m))
  = if decide (Z.of_nat k <= current < Z.of_nat (k + m)) then 1%nat
    else 0%nat.
Proof.
  revert k. induction m as [|m IH]; intros k; simpl.
  - case_decide; [lia|done].
  - rewrite filter_cons.
    destruct (decide (bool_decide (Z.of_nat k = current) = true)) as [Hk|Hk];
      simpl; rewrite IH.
    + apply bool_decide_eq_true in Hk. repeat case_decide; lia.
    + rewrite bool_decide_eq_true in Hk. repeat case_decide; lia.
Qed.

(** X18.  The banner draws no navigation dot for a single banner or
    none, and without the two props.  For more than one banner, up to
    the largest array length 2^32 - 1, it draws one dot per banner, and
    exactly one dot is drawn as the current one when the current index
    is the index of a banner, none when it is not.  From 2^32 banners on
    [Array(totalBanners)] throws a [RangeError] and nothing is drawn. *)
Theorem banner_dots_spec (currentIndex totalBanners : option Z) :
  (default 1 totalBanners <= 1 ->
   Banner.dots currentIndex totalBanners = inr []) /\
  (1 < default 1 totalBanners < 4294967296 ->
   exists flags,
     Banner.dots currentIndex totalBanners = inr flags /\
     length flags = Z.to_nat (default 1 totalBanners) /\
     length (filter (fun b : bool => b = true) flags)
     = (if decide (0 <= default 0 currentIndex < default 1 totalBanners)
        then 1%nat else 0%nat)) /\
  (4294967296 <= default 1 totalBanners ->
   Banner.dots currentIndex totalBanners = inl Banner.RangeError) /\
  Banner.dots None None = inr [].
Proof.
  unfold Banner.dots, Banner.arrayOfLength. cbv zeta.
  split; [|split; [|split; [|done]]].
  - intros Hone. by rewrite bool_decide_false by lia.
  - intros Hmany. rewrite bool_decide_true by lia.
    rewrite bool_decide_true by lia. eexists. split; [done|].
    split; [by rewrite length_fmap, length_seq|].
    rewrite active_flags_count. repeat case_decide; try done; lia.
  - intros Hhuge. rewrite bool_decide_true by lia.
    by rewrite bool_decide_false by lia.
Qed.

Lemma banner_dots_spec_witness :
  Banner.dots (Some 0) (Some 1) = inr [] /\
  (exists flags,
     Banner.dots (Some 1) (Some 3) = inr flags /\
     length flags = Z.to_nat (default 1 (Some 3)) /\
     length (filter (fun b : bool => b = true) flags)
     = (if decide (0 <= default 0 (Some 1) < default 1 (Some 3))
        then 1%nat else 0%nat)) /\
  Banner.dots (Some 0) (Some 4294967296) = inl Banner.RangeError.
Proof.
  split; [|split].
  - destruct (banner_dots_spec (Some 0) (Some 1)) as (Hnone & _).
    apply Hnone. simpl. lia.
  - destruct (banner_dots_spec (Some 1) (Some 3)) as (_ & Hdots & _).
    apply Hdots. simpl. lia.
  - destruct (banner_dots_spec (Some 0) (Some 4294967296))
      as (_ & _ & Hthrows & _).
    apply Hthrows. simpl. lia.
Defined.

(** ** Which episodes the user can get to *)

Lemma episode_on_screen movie ep st :
  toBoolean (isSeries movie) = true ->
  activeTab st = episodesTab ->
  ep ∈ default [] (Movie.episodes movie) ->
  seasonOf ep = selectedSeason st ->
  toBoolean (Episode.isComingSoon ep) = false ->
  EpisodeWatchButton ep ∈ render movie st.
Proof.
  intros Hseries Htab Hin Hseason Hfree.
  apply episodesPanel_render, elem_of_episodesPanel.
  split; [done|]. split; [done|]. right. exists ep. split.
  - rewrite currentSeasonEpisodes_sort, sort_elem_of, elem_of_inSeason. done.
  - apply elem_of_episodeControls. split; [done|by left].
Qed.

(** X19.  An episode that is not coming soon can be brought on the
    screen, by some sequence of clicks, exactly when it belongs to
    season 1 or the title has more than one season: the first view
    shows season 1, and another season is one click on the season
    selector away when there is a selector. *)
Theorem episode_can_be_shown
    (movie : Movie.t) (botUsername channelLink : string)
    (eps : list Episode.t) (ep : Episode.t) (w0 : World) :
  Movie.episodes movie = Some eps ->
  ep ∈ eps ->
  toBoolean (Episode.isComingSoon ep) = false ->
  (exists st w, reachable movie botUsername channelLink w0 (st, w) /\
                EpisodeWatchButton ep ∈ render movie st)
  <-> seasonOf ep = 1 \/ (1 < length (seasonNumbers movie))%nat.
Proof.
  intros Heps Hin Hfree.
  assert (ep ∈ default [] (Movie.episodes movie)) as Hin'
    by by rewrite Heps.
  assert (toBoolean (isSeries movie) = true) as Hseries.
  { apply isSeries_true_iff. right. exists eps. split; [done|].
    destruct eps; [by apply elem_of_nil in Hin|simpl; lia]. }
  split.
  - intros (st & w & Hreach & Hbutton).
    assert (seasonOf ep = selectedSeason st) as Hseason.
    { apply render_episodesPanel in Hbutton; [|naive_solver].
      apply elem_of_episodesPanel in Hbutton
        as (_ & _ & [Hsel|(ep' & Hep & Hctl)]).
      { apply elem_of_seasonSelector in Hsel. naive_solver. }
      apply elem_of_episodeControls in Hctl as [_ Hwhich].
      assert (ep' = ep) as -> by naive_solver.
      rewrite currentSeasonEpisodes_sort, sort_elem_of, elem_of_inSeason
        in Hep.
      by destruct Hep. }
    destruct (decide (1 < length (seasonNumbers movie))%nat) as [?|Hle];
      [by right|left].
    rewrite Hseason.
    apply (selectedSeason_stays_1 movie botUsername channelLink w0 st w);
      [lia|done].
  - intros [Hone|Hmany].
    + exists initialState, w0. split; [apply rtc_refl|].
      by apply episode_on_screen.
    + exists (setSelectedSeason (seasonOf ep) initialState), w0. split.
      * apply rtc_once.
        apply (step_click movie botUsername channelLink
                 (SeasonButton (seasonOf ep)) initialState w0).
        apply SeasonButton_rendered. split; [done|]. split; [done|].
        split; [done|]. apply elem_of_seasonNumbers_episode.
        by exists eps, ep.
      * by apply episode_on_screen.
Qed.

Lemma episode_can_be_shown_witness :
  (exists st w,
     reachable Fixture.gallery "bot" "https://t.me/channel" Sample.browser
       (st, w) /\
     EpisodeWatchButton (Sample.episode "b" 1 (Some 2))
       ∈ render Fixture.gallery st)
  <-> seasonOf (Sample.episode "b" 1 (Some 2)) = 1
      \/ (1 < length (seasonNumbers Fixture.gallery))%nat.
Proof.
  apply (episode_can_be_shown Fixture.gallery "bot" "https://t.me/channel"
           [Sample.episode "a" 1 (Some 1); Sample.episode "b" 1 (Some 2)]
           (Sample.episode "b" 1 (Some 2)) Sample.browser).
  - reflexivity.
  - apply list_elem_of_further, list_elem_of_here.
  - reflexivity.
Defined.
